(** * Event ticket booking: the BookingService over its three tables

    A shallow embedding of [src/services/BookingService.js] together with the
    Sequelize models it drives ([Event], [Booking], [WaitingList]).

    The database is an explicit store that every service method threads
    through.  No method opens a transaction, so a method that throws half-way
    keeps the writes it has already made: a computation returns the final
    store together with either an error or a value.

    Conventions of the embedding
    - a UUID or user id is a [string]; the only falsy string of JavaScript is
      the empty one, which is how [!eventId] is read; the syntax of UUIDs is
      not modelled, every non-empty string is a possible key.  The routes
      [/book] and [/cancel] check with Joi that the event id is a UUID before
      they call the service; [/status/:eventId] does not, so the id that
      [getEventStatus] receives is a [RawId]: a UUID or some other text;
    - a [string] is a sequence of characters with codes below 256;
    - [INTEGER] columns are [Z]; the range of the column is checked where the
      caller supplies the value ([totalTickets]), the values the service
      computes itself (positions, [availableTickets]) leave it only in tables
      of 2^31 rows; [STRING] columns hold 255 characters;
    - [create] runs the validators of the model and then the INSERT, which the
      database can refuse; [increment], [decrement] and [update] of a status
      run neither a validator that can fail nor a constraint;
    - a table without a natural key ([bookings], [waiting_lists]) is the list of
      its rows in insertion order, a row's primary key being its index; an
      instance [update] rewrites the row in place.  A [findOne] without
      [order] is a [SELECT ... LIMIT 1]: when several rows match, the one
      PostgreSQL returns depends on the plan it chooses.  The model takes the
      first matching row in insertion order, the one a sequential scan
      returns: C1 and C7 exhibit an execution under that choice, C10 names
      the row found, and no statement is made about a response being a
      function of the rows;
    - [events] is a finite map from primary key to row;
    - the per-event [AsyncLock] makes each method body atomic with respect to
      the other methods on the same event, and methods on different events
      touch disjoint rows, so a method is one step of the store;
      [getEventStatus] takes no lock and issues three queries: what other
      calls write between them is a parameter of the method;
    - timestamps ([createdAt], [bookedAt], ...) and logging carry no logic and
      are left out; [formatResponse] only reformats timestamps.  The
      formatters it calls are embedded on their own, in [DateFormatter]. *)

From stdpp Require Import gmap strings list fin_maps pretty.
From Stdlib Require Import ZArith Ascii.

Local Open Scope Z_scope.

(** ** Errors *)

(** The service throws plain [Error] objects that differ by message; the
    database adds its own failures.  The constructors carry the names the
    specification gives to the messages. *)
Inductive Error :=
| InvalidArgument        (* "Event ID and User ID are required", "Event ID is
                            required", "Event name must be a non-empty string",
                            "Total tickets must be a positive integer" *)
| EventNotFound          (* "Event not found" *)
| BookingNotFound        (* "No confirmed booking found for this user" *)
| DuplicateBooking       (* "User already has active booking for this event" *)
| UniqueConstraintError  (* SequelizeUniqueConstraintError raised by an INSERT *)
| ValidationError        (* SequelizeValidationError raised by a validator of a
                            model before the INSERT *)
| DatabaseError          (* SequelizeDatabaseError: the database refuses a
                            value for the type of its column *)
| TypeError.             (* a method called on [null] *)

#[global] Instance Error_eq_dec : EqDecision Error.
Proof. solve_decision. Defined.

(** [!x] for a string [x]. *)
Definition falsy (x : string) : bool :=
  match x with
  | EmptyString => true
  | String _ _ => false
  end.

(** ** Validators and column types *)

(** The characters [\s] matches, among those of code below 256: tab to
    carriage return, space, and the no-break space. *)
Definition is_space (c : ascii) : bool :=
  let n := nat_of_ascii c in
  ((9 <=? n) && (n <=? 13) || (n =? 32) || (n =? 160))%nat.

(** [/^[\s\t\r\n]*$/], the strings the validator [notEmpty] of Sequelize
    rejects. *)
Fixpoint blank (x : string) : bool :=
  match x with
  | EmptyString => true
  | String c rest => is_space c && blank rest
  end.

(** [validate: { notEmpty: true }] *)
Definition notEmpty (x : string) : bool := negb (blank x).

(** [DataTypes.STRING] is [VARCHAR(255)]. *)
Definition fits_STRING (x : string) : bool := (String.length x <=? 255)%nat.

(** [DataTypes.INTEGER] is a signed 32-bit column. *)
Definition fits_INTEGER (n : Z) : bool :=
  (-2147483648 <=? n) && (n <=? 2147483647).

(** The error with which [bookings] and [waiting_lists] refuse a row for its
    [userId]: the validator runs first, the INSERT after it. *)
Definition refused (userId : string) : option Error :=
  if negb (notEmpty userId) then Some ValidationError
  else if negb (fits_STRING userId) then Some DatabaseError
  else None.

(** ** The models *)

Module Event.
(** [models/event.js]; the primary key [id] is the key of the table.  [name]
    is validated [notEmpty], [totalTickets] [min: 1] and [availableTickets]
    [min: 0]. *)
Record t := mk {
  name : string;
  totalTickets : Z;
  availableTickets : Z;
}.

(** [event.increment("availableTickets", { by })] and [decrement] issue
    [UPDATE events SET availableTickets = availableTickets + by]; model
    validators ([min: 0]) do not run on them. *)
Definition add (by_ : Z) (ev : t) : t :=
  mk (name ev) (totalTickets ev) (availableTickets ev + by_).
End Event.

Module Booking.
Inductive Status := confirmed | waiting | cancelled.

#[global] Instance Status_eq_dec : EqDecision Status.
Proof. solve_decision. Defined.

(** [models/booking.js]; [position] is nullable, [userId] is validated
    [notEmpty]. *)
Record t := mk {
  eventId : string;
  userId : string;
  status : Status;
  position : option Z;
}.

#[global] Instance t_eq_dec : EqDecision t.
Proof. solve_decision. Defined.

Definition set_status (st : Status) (b : t) : t :=
  mk (eventId b) (userId b) st (position b).
End Booking.

Module WaitingList.
Inductive Status := waiting | assigned.

#[global] Instance Status_eq_dec : EqDecision Status.
Proof. solve_decision. Defined.

(** [models/waitingList.js]; the table has a unique index on
    [(eventId, position)], [userId] is validated [notEmpty]. *)
Record t := mk {
  eventId : string;
  userId : string;
  position : Z;
  status : Status;
}.

#[global] Instance t_eq_dec : EqDecision t.
Proof. solve_decision. Defined.

Definition set_status (st : Status) (w : t) : t :=
  mk (eventId w) (userId w) (position w) st.
End WaitingList.

(** ** The store and the computations over it *)

Record Store := mkStore {
  events : gmap string Event.t;
  bookings : list Booking.t;
  waitingLists : list WaitingList.t;
}.

Definition emptyStore : Store := mkStore ∅ [] [].

Definition M (A : Type) : Type := Store → Store * (Error + A).

Definition ret {A} (a : A) : M A := λ s, (s, inr a).
Definition throw {A} (e : Error) : M A := λ s, (s, inl e).
Definition bind {A B} (c : M A) (k : A → M B) : M B :=
  λ s, match c s with
       | (s', inr a) => k a s'
       | (s', inl e) => (s', inl e)
       end.

Notation "x <- c ;; k" := (bind c (λ x, k))
  (at level 20, c at level 99, k at level 200, right associativity).
Notation "c ;;; k" := (bind c (λ _, k))
  (at level 20, k at level 200, right associativity).

(** ** Queries and writes issued by the service *)

(** [where: { eventId, userId }] on [bookings]. *)
Definition booking_of (e u : string) (b : Booking.t) : Prop :=
  Booking.eventId b = e ∧ Booking.userId b = u.

(** [where: { eventId, userId, status }] on [bookings]. *)
Definition booking_with (e u : string) (st : Booking.Status) (b : Booking.t) : Prop :=
  Booking.eventId b = e ∧ Booking.userId b = u ∧ Booking.status b = st.

(** [where: { eventId, status }] on [bookings]. *)
Definition booking_in (e : string) (st : Booking.Status) (b : Booking.t) : Prop :=
  Booking.eventId b = e ∧ Booking.status b = st.

(** [where: { eventId, status: "waiting" }] on [waiting_lists]. *)
Definition queued_in (e : string) (w : WaitingList.t) : Prop :=
  WaitingList.eventId w = e ∧ WaitingList.status w = WaitingList.waiting.

(** [where: { eventId, userId }] on [waiting_lists]. *)
Definition entry_of (e u : string) (w : WaitingList.t) : Prop :=
  WaitingList.eventId w = e ∧ WaitingList.userId w = u.

#[global] Instance booking_of_dec e u b : Decision (booking_of e u b) :=
  decide (Booking.eventId b = e ∧ Booking.userId b = u).
#[global] Instance booking_with_dec e u st b : Decision (booking_with e u st b) :=
  decide (Booking.eventId b = e ∧ Booking.userId b = u ∧ Booking.status b = st).
#[global] Instance booking_in_dec e st b : Decision (booking_in e st b) :=
  decide (Booking.eventId b = e ∧ Booking.status b = st).
#[global] Instance queued_in_dec e w : Decision (queued_in e w) :=
  decide (WaitingList.eventId w = e ∧ WaitingList.status w = WaitingList.waiting).
#[global] Instance entry_of_dec e u w : Decision (entry_of e u w) :=
  decide (WaitingList.eventId w = e ∧ WaitingList.userId w = u).

(** An event id before any validation: the text of a UUID, which is a
    possible key of [events], or some other text.  Which texts PostgreSQL
    reads as a UUID is not part of the repository. *)
Inductive RawId :=
| Uuid (id : string)
| NotUuid (text : string).

#[global] Instance RawId_eq_dec : EqDecision RawId.
Proof. solve_decision. Defined.

(** The string that [!eventId] tests. *)
Definition text (p : RawId) : string :=
  match p with
  | Uuid id => id
  | NotUuid t => t
  end.

(** [Event.findByPk(id)]: the comparison of the [UUID] column with a text
    that is not a UUID is refused by the database. *)
Definition Event_findByPk (id : RawId) : M (option Event.t) :=
  λ s, match id with
       | Uuid id => (s, inr (events s !! id))
       | NotUuid _ => (s, inl DatabaseError)
       end.

(** [event.increment("availableTickets", { by })] on the row with key [id];
    [decrement] is the same with [-by]. *)
Definition Event_increment (id : string) (by_ : Z) : M unit :=
  λ s, (mkStore (alter (Event.add by_) id (events s)) (bookings s) (waitingLists s),
        inr tt).

Definition Event_decrement (id : string) (by_ : Z) : M unit :=
  Event_increment id (- by_).

(** [Event.create(row)].  The validators of the model run first; the INSERT
    then checks the values against their columns.  Sequelize draws the UUID
    primary key; the drawn value is the parameter [id], and a key already
    present violates the primary key. *)
Definition Event_create (id : string) (ev : Event.t) : M (string * Event.t) :=
  λ s, if negb (notEmpty (Event.name ev))
          || (Event.totalTickets ev <? 1) || (Event.availableTickets ev <? 0)
       then (s, inl ValidationError)
       else if negb (fits_STRING (Event.name ev))
               || negb (fits_INTEGER (Event.totalTickets ev))
               || negb (fits_INTEGER (Event.availableTickets ev))
       then (s, inl DatabaseError)
       else match events s !! id with
            | Some _ => (s, inl UniqueConstraintError)
            | None =>
                (mkStore (<[id := ev]> (events s)) (bookings s) (waitingLists s),
                 inr (id, ev))
            end.

(** [Booking.findOne({ where })]: the first matching row in insertion order,
    and its key. *)
Definition Booking_findOne (P : Booking.t → Prop) `{∀ b, Decision (P b)}
  : M (option (nat * Booking.t)) :=
  λ s, (s, inr (list_find P (bookings s))).

(** [Booking.create(row)]: the validator of [userId], then the INSERT. *)
Definition Booking_create (b : Booking.t) : M Booking.t :=
  λ s, match refused (Booking.userId b) with
       | Some err => (s, inl err)
       | None => (mkStore (events s) (bookings s ++ [b]) (waitingLists s), inr b)
       end.

(** [booking.update({ status })] on the instance [b] read from row [i]. *)
Definition Booking_update (i : nat) (b : Booking.t) (st : Booking.Status) : M Booking.t :=
  λ s, let b' := Booking.set_status st b in
       (mkStore (events s) (<[i := b']> (bookings s)) (waitingLists s), inr b').

(** The number of rows of a table that satisfy [P]. *)
Definition count {A} (P : A → Prop) `{∀ x, Decision (P x)} (rows : list A) : Z :=
  Z.of_nat (length (filter P rows)).

(** [Booking.count({ where })] *)
Definition Booking_count (P : Booking.t → Prop) `{∀ b, Decision (P b)} : M Z :=
  λ s, (s, inr (count P (bookings s))).

(** [WaitingList.count({ where })] *)
Definition WaitingList_count (P : WaitingList.t → Prop) `{∀ w, Decision (P w)} : M Z :=
  λ s, (s, inr (count P (waitingLists s))).

(** The first row of [rows] that satisfies [P] and whose position no other
    such row beats; [beats p q] says that a row at position [p] comes before a
    row at position [q] in the requested order. *)
Fixpoint first_ordered (beats : Z → Z → bool) (P : WaitingList.t → Prop)
    `{∀ w, Decision (P w)} (rows : list WaitingList.t) : option WaitingList.t :=
  match rows with
  | [] => None
  | w :: rest =>
      let r := first_ordered beats P rest in
      if decide (P w) then
        match r with
        | Some w' =>
            if beats (WaitingList.position w') (WaitingList.position w)
            then Some w' else Some w
        | None => Some w
        end
      else r
  end.

(** [WaitingList.findOne({ where: { eventId, status: "waiting" },
                           order: [["position", "ASC"]] })] *)
Definition WaitingList_findOne_asc (e : string) : M (option WaitingList.t) :=
  λ s, (s, inr (first_ordered Z.ltb (queued_in e) (waitingLists s))).

(** [WaitingList.findOne({ where: { eventId, status: "waiting" },
                           order: [["position", "DESC"]] })] *)
Definition WaitingList_findOne_desc (e : string) : M (option WaitingList.t) :=
  λ s, (s, inr (first_ordered Z.gtb (queued_in e) (waitingLists s))).

(** The unique index of [waiting_lists] on [(eventId, position)]. *)
Definition same_slot (w w' : WaitingList.t) : Prop :=
  WaitingList.eventId w' = WaitingList.eventId w
  ∧ WaitingList.position w' = WaitingList.position w.

#[global] Instance same_slot_dec w w' : Decision (same_slot w w') :=
  decide (WaitingList.eventId w' = WaitingList.eventId w
          ∧ WaitingList.position w' = WaitingList.position w).

(** [WaitingList.create(row)]: the validator of [userId], then the INSERT,
    which is refused when the unique index already holds the row's
    [(eventId, position)]. *)
Definition WaitingList_create (w : WaitingList.t) : M WaitingList.t :=
  λ s, match refused (WaitingList.userId w) with
       | Some err => (s, inl err)
       | None =>
           match list_find (same_slot w) (waitingLists s) with
           | Some _ => (s, inl UniqueConstraintError)
           | None =>
               (mkStore (events s) (bookings s) (waitingLists s ++ [w]), inr w)
           end
       end.

(** [WaitingList.update({ status }, { where: { eventId, userId } })]: a bulk
    UPDATE of every row of the pair. *)
Definition WaitingList_update (st : WaitingList.Status) (e u : string) : M unit :=
  λ s, (mkStore (events s) (bookings s)
          ((λ w, if decide (entry_of e u w) then WaitingList.set_status st w else w)
             <$> waitingLists s),
        inr tt).

(** ** BookingService *)

(** [initializeEvent(name, totalTickets)]; [id] is the key the insert draws.
    [name] being a [string] and [totalTickets] a [Z], [typeof name] and
    [Number.isInteger] hold. *)
Definition initializeEvent (id : string) (name : string) (totalTickets : Z)
  : M (string * Event.t) :=
  if falsy name then throw InvalidArgument
  else if totalTickets <? 1 then throw InvalidArgument
  else Event_create id (Event.mk name totalTickets totalTickets).

(** [_getNextWaitingPosition(eventId)] *)
Definition _getNextWaitingPosition (eventId : string) : M Z :=
  lastWaiting <- WaitingList_findOne_desc eventId ;;
  ret (match lastWaiting with
       | Some w => WaitingList.position w + 1
       | None => 1
       end).

(** [existingBooking && existingBooking.status !== "cancelled"] *)
Definition is_active (existingBooking : option (nat * Booking.t)) : bool :=
  match existingBooking with
  | Some (_, b) => bool_decide (Booking.status b ≠ Booking.cancelled)
  | None => false
  end.

(** [bookTicket(eventId, userId)]; [eventId] has passed the UUID check of the
    route. *)
Definition bookTicket (eventId userId : string) : M Booking.t :=
  if falsy eventId || falsy userId then throw InvalidArgument
  else
    existingBooking <- Booking_findOne (booking_of eventId userId) ;;
    if is_active existingBooking then throw DuplicateBooking
    else
      event <- Event_findByPk (Uuid eventId) ;;
      match event with
      | None => throw EventNotFound
      | Some ev =>
          if 0 <? Event.availableTickets ev then
            Event_decrement eventId 1 ;;;
            booking <- Booking_create
                         (Booking.mk eventId userId Booking.confirmed None) ;;
            ret booking
          else
            nextPosition <- _getNextWaitingPosition eventId ;;
            booking <- Booking_create
                         (Booking.mk eventId userId Booking.waiting (Some nextPosition)) ;;
            WaitingList_create
              (WaitingList.mk eventId userId nextPosition WaitingList.waiting) ;;;
            ret booking
      end.

(** [_assignWaitingUserToTicket(eventId, userId)] *)
Definition _assignWaitingUserToTicket (eventId userId : string)
  : M (option Booking.t) :=
  WaitingList_update WaitingList.assigned eventId userId ;;;
  booking <- Booking_findOne (booking_with eventId userId Booking.waiting) ;;
  match booking with
  | Some (i, b) =>
      b' <- Booking_update i b Booking.confirmed ;;
      ret (Some b')
  | None => ret None
  end.

(** [cancelBooking(eventId, userId)]; the result is
    [{ cancelledBooking, assignedUser }].  [eventId] has passed the UUID check
    of the route. *)
Definition cancelBooking (eventId userId : string)
  : M (Booking.t * option Booking.t) :=
  if falsy eventId || falsy userId then throw InvalidArgument
  else
    booking <- Booking_findOne (booking_with eventId userId Booking.confirmed) ;;
    match booking with
    | None => throw BookingNotFound
    | Some (i, b) =>
        cancelledBooking <- Booking_update i b Booking.cancelled ;;
        event <- Event_findByPk (Uuid eventId) ;;
        match event with
        | None => throw TypeError
        | Some _ =>
            Event_increment eventId 1 ;;;
            nextWaiting <- WaitingList_findOne_asc eventId ;;
            match nextWaiting with
            | Some w =>
                assignedUser <- _assignWaitingUserToTicket eventId
                                  (WaitingList.userId w) ;;
                Event_decrement eventId 1 ;;;
                ret (cancelledBooking, assignedUser)
            | None => ret (cancelledBooking, None)
            end
        end
    end.

Module EventStatus.
(** The object [getEventStatus] returns, without its [timestamp]. *)
Record t := mk {
  eventId : string;
  eventName : string;
  totalTickets : Z;
  availableTickets : Z;
  bookedTickets : Z;
  waitingListCount : Z;
}.
End EventStatus.

(** What other calls write while a method that holds no lock awaits the
    answer to a query. *)
Definition meanwhile (others : Store → Store) : M unit :=
  λ s, (others s, inr tt).

(** [getEventStatus(eventId)].  The method runs outside the lock: [others1]
    is what is written between its first and its second query, [others2]
    between the second and the third.  The event found has the key it was
    looked up with. *)
Definition getEventStatus (eventId : RawId) (others1 others2 : Store → Store)
  : M EventStatus.t :=
  if falsy (text eventId) then throw InvalidArgument
  else
    event <- Event_findByPk eventId ;;
    match event with
    | None => throw EventNotFound
    | Some ev =>
        meanwhile others1 ;;;
        waitingCount <- WaitingList_count (queued_in (text eventId)) ;;
        meanwhile others2 ;;;
        confirmedCount <-
          Booking_count (booking_in (text eventId) Booking.confirmed) ;;
        ret (EventStatus.mk (text eventId) (Event.name ev)
               (Event.totalTickets ev) (Event.availableTickets ev)
               confirmedCount waitingCount)
    end.

(** ** Executions *)

(** A call of the service's public interface. *)
Inductive Request :=
| InitializeEvent (id name : string) (totalTickets : Z)
| BookTicket (eventId userId : string)
| CancelBooking (eventId userId : string)
| GetEventStatus (eventId : RawId).

(** The store a call leaves behind, whether it returns or throws.  The calls
    are taken one after the other: nothing is written during a
    [getEventStatus]. *)
Definition handle (s : Store) (r : Request) : Store :=
  match r with
  | InitializeEvent id name n => fst (initializeEvent id name n s)
  | BookTicket e u => fst (bookTicket e u s)
  | CancelBooking e u => fst (cancelBooking e u s)
  | GetEventStatus e => fst (getEventStatus e id id s)
  end.

Definition exec (rs : list Request) (s : Store) : Store := foldl handle s rs.

(** The stores the service can produce from the empty database. *)
Inductive reachable : Store → Prop :=
| reachable_empty : reachable emptyStore
| reachable_handle s r : reachable s → reachable (handle s r).

(** ** The helpers as functions of the table *)

(** The position [_getNextWaitingPosition] computes. *)
Definition nextPosition (e : string) (rows : list WaitingList.t) : Z :=
  match first_ordered Z.gtb (queued_in e) rows with
  | Some w => WaitingList.position w + 1
  | None => 1
  end.

(** The rows of [waiting_lists] after the bulk update of
    [_assignWaitingUserToTicket(e, u)]. *)
Definition assigned_entries (e u : string) (rows : list WaitingList.t) :=
  (λ w, if decide (entry_of e u w)
        then WaitingList.set_status WaitingList.assigned w else w) <$> rows.

(** ** Consistency of a store *)

(** The properties every store produced by the service has. *)
Record consistent (s : Store) : Prop := {
  (** every booking is for an event of the store; *)
  bookings_reference_events :
    ∀ b, b ∈ bookings s → is_Some (events s !! Booking.eventId b);
  (** the tickets of an event cover those still available and those held by
      its confirmed bookings; *)
  tickets_accounted :
    ∀ e ev, events s !! e = Some ev →
      0 ≤ Event.availableTickets ev
      ∧ Event.availableTickets ev
        + count (booking_in e Booking.confirmed) (bookings s)
        ≤ Event.totalTickets ev;
  (** the requester of an entry that is still waiting has a waiting booking; *)
  queued_have_booking :
    ∀ w, w ∈ waitingLists s → WaitingList.status w = WaitingList.waiting →
      ∃ b, b ∈ bookings s
           ∧ booking_with (WaitingList.eventId w) (WaitingList.userId w)
               Booking.waiting b;
  (** an entry that is still waiting has a smaller position than every entry
      created after it for the same event. *)
  queue_ordered :
    ∀ i j wi wj,
      waitingLists s !! i = Some wi → waitingLists s !! j = Some wj →
      (i < j)%nat → WaitingList.eventId wi = WaitingList.eventId wj →
      WaitingList.status wi = WaitingList.waiting →
      WaitingList.position wi < WaitingList.position wj;
}.

(** ** Entering and leaving the waiting list *)

(** In store [s], [bookTicket(e, u)] returns a waiting booking. *)
Definition enqueued_by (s : Store) (e u : string) : Prop :=
  ∃ b, snd (bookTicket e u s) = inr b ∧ Booking.status b = Booking.waiting.

(** The call [r], issued in store [s], is a [cancelBooking] for event [e]
    whose [assignedUser] is a booking of requester [u]. *)
Definition promoted_by (s : Store) (r : Request) (e u : string) : Prop :=
  ∃ c cb p, r = CancelBooking e c
            ∧ snd (cancelBooking e c s) = inr (cb, Some p)
            ∧ Booking.userId p = u.

(** A row of [waiting_lists] keeps its key, event, requester and position;
    its status can only go from waiting to assigned. *)
Definition row_evolves (w w' : WaitingList.t) : Prop :=
  WaitingList.eventId w' = WaitingList.eventId w
  ∧ WaitingList.userId w' = WaitingList.userId w
  ∧ WaitingList.position w' = WaitingList.position w
  ∧ (WaitingList.status w' = WaitingList.waiting → w' = w).

(** ** Further properties of the stores the service produces *)

(** The positions of the entries of event [e], in the order of their
    creation. *)
Definition positions_of (e : string) (rows : list WaitingList.t) : list Z :=
  WaitingList.position <$> filter (λ w, WaitingList.eventId w = e) rows.

Record settled (s : Store) : Prop := {
  (** every queue entry is for an event of the store; *)
  entries_reference_events :
    ∀ w, w ∈ waitingLists s → is_Some (events s !! WaitingList.eventId w);
  (** nobody waits for an event that has a ticket available; *)
  waiting_means_sold_out :
    ∀ w ev, w ∈ waitingLists s → WaitingList.status w = WaitingList.waiting →
      events s !! WaitingList.eventId w = Some ev →
      Event.availableTickets ev = 0;
  (** the entries of an event are numbered 1, 2, 3, ... as they are created. *)
  positions_by_arrival :
    ∀ e, positions_of e (waitingLists s)
         = Z.of_nat <$> seq 1 (length (positions_of e (waitingLists s)));
}.


(** A call whose user id, when it inserts one, the tables accept. *)
Definition accepted (r : Request) : Prop :=
  match r with
  | BookTicket _ u => refused u = None
  | _ => True
  end.

#[global] Instance accepted_dec r : Decision (accepted r).
Proof. destruct r; apply _. Defined.

(** The order in which a booking passes through its statuses. *)
Definition status_rank (st : Booking.Status) : nat :=
  match st with
  | Booking.waiting => 0
  | Booking.confirmed => 1
  | Booking.cancelled => 2
  end.

(** A row of [bookings] keeps its key, event, requester and position; its
    status can only advance. *)
Definition booking_evolves (b b' : Booking.t) : Prop :=
  Booking.eventId b' = Booking.eventId b
  ∧ Booking.userId b' = Booking.userId b
  ∧ Booking.position b' = Booking.position b
  ∧ (status_rank (Booking.status b) ≤ status_rank (Booking.status b'))%nat.


(** ** Calls, events and their rows *)

(** The event a call is about. *)
Definition target (r : Request) : string :=
  match r with
  | InitializeEvent id _ _ => id
  | BookTicket e _ => e
  | CancelBooking e _ => e
  | GetEventStatus e => text e
  end.

(** The rows of event [e]: its row of [events], its bookings and its queue
    entries, each table in insertion order. *)
Definition slice (e : string) (s : Store)
  : option Event.t * list Booking.t * list WaitingList.t :=
  (events s !! e,
   filter (λ b, Booking.eventId b = e) (bookings s),
   filter (λ w, WaitingList.eventId w = e) (waitingLists s)).

(** ** Date formatting ([src/utils/dateFormatter.js])

    The service hands every timestamp of a response to [formatDateReadable].
    A [Date] is seen through its UTC getters only, so a valid one is the
    record of what they report and Invalid Date is the one on which they all
    report [NaN].  [new Date(s)] for a string [s] is not part of the
    repository: a string argument comes with the [Date] it parses to. *)

#[global] Instance comparison_eq_dec : EqDecision comparison.
Proof. solve_decision. Defined.

Module DateFormatter.

Record UTC := mkUTC {
  year : Z;       (* getUTCFullYear *)
  month : Z;      (* getUTCMonth, 0 to 11 *)
  date : Z;       (* getUTCDate, 1 to 31 *)
  hours : Z;      (* getUTCHours *)
  minutes : Z;    (* getUTCMinutes *)
  seconds : Z;    (* getUTCSeconds *)
}.

#[global] Instance UTC_eq_dec : EqDecision UTC.
Proof. solve_decision. Defined.

(** [None] is Invalid Date. *)
Definition Date := option UTC.

(** The numbers the formatters handle: an integer or [NaN]. *)
Definition Number := option Z.

Definition getUTCFullYear (d : Date) : Number := year <$> d.
Definition getUTCMonth (d : Date) : Number := month <$> d.
Definition getUTCDate (d : Date) : Number := date <$> d.
Definition getUTCHours (d : Date) : Number := hours <$> d.
Definition getUTCMinutes (d : Date) : Number := minutes <$> d.
Definition getUTCSeconds (d : Date) : Number := seconds <$> d.

(** [Number.prototype.toString], also what a template literal prints. *)
Definition toString (n : Number) : string :=
  match n with
  | Some x => pretty x
  | None => "NaN"
  end.

Fixpoint repeatChar (c : ascii) (k : nat) : string :=
  match k with
  | O => ""
  | S k => String c (repeatChar c k)
  end.

(** [s.padStart(n, c)] for a one-character filler [c]. *)
Definition padStart (n : nat) (c : ascii) (s : string) : string :=
  repeatChar c (n - String.length s) +:+ s.

Definition months : list string :=
  ["Jan"; "Feb"; "Mar"; "Apr"; "May"; "Jun";
   "Jul"; "Aug"; "Sep"; "Oct"; "Nov"; "Dec"].

(** [months[i]] inside a template literal: an index outside the array reads
    [undefined]. *)
Definition monthName (i : Z) : string :=
  if bool_decide (0 ≤ i)
  then default "undefined" (months !! Z.to_nat i)
  else "undefined".

(** The argument of a formatter: [null] or [undefined], a string, or a
    [Date] object. *)
Inductive Arg :=
| Nothing
| Text (s : string) (parsed : Date)
| Obj (d : Date).

(** What a formatter returns: [null], a string, or the Invalid Date it was
    given. *)
Inductive Out :=
| Null
| Str (s : string)
| InvalidDate.

#[global] Instance Out_eq_dec : EqDecision Out.
Proof. solve_decision. Defined.

(** Lines 58 to 80, on a date known to be valid. *)
Definition readable (d : UTC) : string :=
  let day := padStart 2 "0"%char (toString (Some (date d))) in
  let month := monthName (month d) in
  let year := toString (Some (year d)) in
  let hours := padStart 2 "0"%char (toString (Some (hours d))) in
  let minutes := padStart 2 "0"%char (toString (Some (minutes d))) in
  let seconds := padStart 2 "0"%char (toString (Some (seconds d))) in
  day +:+ " " +:+ month +:+ " " +:+ year +:+ " at " +:+
  hours +:+ ":" +:+ minutes +:+ ":" +:+ seconds +:+ " UTC".

Definition formatDateReadable (a : Arg) : Out :=
  match a with
  | Nothing => Null
  | Text s parsed =>
      if falsy s then Null
      else match parsed with
           | None => Str s
           | Some d => Str (readable d)
           end
  | Obj None => InvalidDate
  | Obj (Some d) => Str (readable d)
  end.

(** Lines 94 to 101; the date is not checked here, so an invalid one prints
    its [NaN]s. *)
Definition compact (d : Date) : string :=
  let year := toString (getUTCFullYear d) in
  let month := padStart 2 "0"%char (toString ((λ m, m + 1) <$> getUTCMonth d)) in
  let day := padStart 2 "0"%char (toString (getUTCDate d)) in
  let hours := padStart 2 "0"%char (toString (getUTCHours d)) in
  let minutes := padStart 2 "0"%char (toString (getUTCMinutes d)) in
  let seconds := padStart 2 "0"%char (toString (getUTCSeconds d)) in
  year +:+ "-" +:+ month +:+ "-" +:+ day +:+ " " +:+
  hours +:+ ":" +:+ minutes +:+ ":" +:+ seconds.

Definition formatDateCompact (a : Arg) : Out :=
  match a with
  | Nothing => Null
  | Text s parsed => if falsy s then Null else Str (compact parsed)
  | Obj d => Str (compact d)
  end.

(** The time-zone label of [formatDateWithTimezone], from the minutes that
    [getTimezoneOffset] reports (UTC minus local time).  [Math.floor] of the
    quotient is [Z.div], [%] is the truncating [Z.rem]. *)
Definition offsetHours (offset : Z) : Z := Z.abs (offset / 60).
Definition offsetMinutes (offset : Z) : Z := Z.abs (Z.rem offset 60).
Definition sign (offset : Z) : string :=
  if bool_decide (offset ≤ 0) then "+" else "-".

Definition tzStr (offset : Z) : string :=
  "(UTC" +:+ sign offset +:+
  padStart 2 "0"%char (toString (Some (offsetHours offset))) +:+ ":" +:+
  padStart 2 "0"%char (toString (Some (offsetMinutes offset))) +:+ ")".

(** [n.toString().padStart(2, "0")] on an integer. *)
Definition pad2 (n : Z) : string := padStart 2 "0"%char (toString (Some n)).

(** The fields of a date that exists: the ranges of the getters. *)
Definition calendar (d : UTC) : Prop :=
  0 ≤ month d ≤ 11 ∧ 1 ≤ date d ≤ 31 ∧
  0 ≤ hours d ≤ 23 ∧ 0 ≤ minutes d ≤ 59 ∧ 0 ≤ seconds d ≤ 59.

#[global] Instance calendar_dec d : Decision (calendar d).
Proof. unfold calendar. apply _. Defined.

(** Chronological order of two dates: the first field that differs decides. *)
Definition fields (d : UTC) : list Z :=
  [year d; month d; date d; hours d; minutes d; seconds d].

Fixpoint lex_lt (xs ys : list Z) : Prop :=
  match xs, ys with
  | x :: xs, y :: ys => x < y ∨ (x = y ∧ lex_lt xs ys)
  | _, _ => False
  end.

Definition earlier (d1 d2 : UTC) : Prop := lex_lt (fields d1) (fields d2).

End DateFormatter.

(** ** Traces used as test vectors *)

(** Scenario 1 of the unit tests, up to the sale of the last ticket. *)
Definition scenario1 : list Request :=
  [InitializeEvent "e" "Concert" 2; BookTicket "e" "u1"; BookTicket "e" "u2"].

(** A requester books, cancels and books again. *)
Definition rebook_trace : list Request :=
  [InitializeEvent "e" "Concert" 2; BookTicket "e" "u1"; CancelBooking "e" "u1";
   BookTicket "e" "u1"].

(** The same on a sold-out event: "a" books, cancels, and books twice while
    "c" holds the only ticket; "c" then cancels. *)
Definition rebook_sold_out_trace : list Request :=
  [InitializeEvent "e" "Concert" 1; BookTicket "e" "a"; CancelBooking "e" "a";
   BookTicket "e" "c"; BookTicket "e" "a"; BookTicket "e" "a";
   CancelBooking "e" "c"].

(** The only waiting requester of a one-ticket event is promoted. *)
Definition drained_queue_trace : list Request :=
  [InitializeEvent "e" "Concert" 1; BookTicket "e" "u1"; BookTicket "e" "u2";
   CancelBooking "e" "u1"].

(** A one-ticket event is sold to "u1"; "u2" and then "u3" go waiting. *)
Definition queue_prefix : list Request :=
  [InitializeEvent "e" "Concert" 1; BookTicket "e" "u1"].

(** A hand-built store: "u2" has a queue entry but no waiting booking. *)
Definition entry_without_booking : Store :=
  mkStore {["e" := Event.mk "Concert" 1 0]}
    [Booking.mk "e" "u1" Booking.confirmed None]
    [WaitingList.mk "e" "u2" 1 WaitingList.waiting].

(** * Properties *)

(** ** The ordered lookups *)

Section first_ordered.
Context (beats : Z → Z → bool) (P : WaitingList.t → Prop) `{∀ w, Decision (P w)}.

Lemma first_ordered_None rows :
  first_ordered beats P rows = None ↔ ∀ w, w ∈ rows → ¬ P w.
Proof.
  induction rows as [|w rows IH]; simpl.
  - split; [intros _ w Hw; by apply elem_of_nil in Hw | done].
  - destruct (decide (P w)) as [Hw|Hw].
    + split.
      * destruct (first_ordered beats P rows) as [w'|]; [|done].
        by destruct (beats _ _).
      * intros Hall. exfalso. apply (Hall w); [left | done].
    + rewrite IH. split.
      * intros Hall w' [->|Hin]%elem_of_cons; auto.
      * intros Hall w' Hin. apply Hall. by right.
Qed.

Lemma first_ordered_Some rows w :
  first_ordered beats P rows = Some w → w ∈ rows ∧ P w.
Proof.
  revert w. induction rows as [|w0 rows IH]; simpl; intros w Hw; [done|].
  destruct (decide (P w0)) as [H0|H0].
  - destruct (first_ordered beats P rows) as [w'|] eqn:Hr.
    + destruct (beats _ _); simplify_eq.
      * destruct (IH _ eq_refl). split; [by right | done].
      * split; [left | done].
    + simplify_eq. split; [left | done].
  - destruct (IH _ Hw). split; [by right | done].
Qed.

Lemma first_ordered_is_Some rows w :
  w ∈ rows → P w → is_Some (first_ordered beats P rows).
Proof.
  intros Hin Hw.
  destruct (first_ordered beats P rows) eqn:Hr; [by eexists|].
  rewrite first_ordered_None in Hr. by destruct (Hr w).
Qed.
End first_ordered.

(** Ascending order returns a row of least position. *)
Lemma first_ordered_asc_least (P : WaitingList.t → Prop) `{∀ w, Decision (P w)} rows w :
  first_ordered Z.ltb P rows = Some w →
  ∀ w', w' ∈ rows → P w' → WaitingList.position w ≤ WaitingList.position w'.
Proof.
  revert w. induction rows as [|w0 rows IH]; simpl; intros w Hw w' Hin Hw'.
  { by apply elem_of_nil in Hin. }
  destruct (decide (P w0)) as [H0|H0].
  - destruct (first_ordered Z.ltb P rows) as [w1|] eqn:Hr.
    + destruct (Z.ltb_spec (WaitingList.position w1) (WaitingList.position w0));
        simplify_eq; apply elem_of_cons in Hin as [->|Hin].
      * lia.
      * by apply (IH _ eq_refl).
      * lia.
      * specialize (IH _ eq_refl _ Hin Hw'). lia.
    + simplify_eq. apply elem_of_cons in Hin as [->|Hin]; [lia|].
      rewrite first_ordered_None in Hr. by destruct (Hr w').
  - apply elem_of_cons in Hin as [->|Hin]; [done|]. by apply IH.
Qed.

(** Descending order returns a row of greatest position. *)
Lemma first_ordered_desc_greatest (P : WaitingList.t → Prop) `{∀ w, Decision (P w)} rows w :
  first_ordered Z.gtb P rows = Some w →
  ∀ w', w' ∈ rows → P w' → WaitingList.position w' ≤ WaitingList.position w.
Proof.
  revert w. induction rows as [|w0 rows IH]; simpl; intros w Hw w' Hin Hw'.
  { by apply elem_of_nil in Hin. }
  destruct (decide (P w0)) as [H0|H0].
  - destruct (first_ordered Z.gtb P rows) as [w1|] eqn:Hr.
    + destruct (Z.gtb_spec (WaitingList.position w1) (WaitingList.position w0));
        simplify_eq; apply elem_of_cons in Hin as [->|Hin].
      * lia.
      * by apply (IH _ eq_refl).
      * lia.
      * specialize (IH _ eq_refl _ Hin Hw'). lia.
    + simplify_eq. apply elem_of_cons in Hin as [->|Hin]; [lia|].
      rewrite first_ordered_None in Hr. by destruct (Hr w').
  - apply elem_of_cons in Hin as [->|Hin]; [done|]. by apply IH.
Qed.

Lemma _getNextWaitingPosition_eq e s :
  _getNextWaitingPosition e s = (s, inr (nextPosition e (waitingLists s))).
Proof. reflexivity. Qed.

Lemma nextPosition_above e rows w :
  w ∈ rows → queued_in e w → WaitingList.position w < nextPosition e rows.
Proof.
  intros Hin Hw. unfold nextPosition.
  destruct (first_ordered _ _ _) as [w'|] eqn:Hr.
  - pose proof (first_ordered_desc_greatest _ _ _ Hr _ Hin Hw). lia.
  - rewrite first_ordered_None in Hr. by destruct (Hr w).
Qed.


Lemma nextPosition_max e rows w :
  w ∈ rows → queued_in e w →
  (∀ w', w' ∈ rows → queued_in e w' → WaitingList.position w' ≤ WaitingList.position w) →
  nextPosition e rows = WaitingList.position w + 1.
Proof.
  intros Hin Hw Hmax. unfold nextPosition.
  destruct (first_ordered _ _ _) as [w'|] eqn:Hr.
  - pose proof (first_ordered_desc_greatest _ _ _ Hr _ Hin Hw).
    destruct (first_ordered_Some _ _ _ _ Hr) as [Hin' Hw'].
    specialize (Hmax _ Hin' Hw'). lia.
  - rewrite first_ordered_None in Hr. by destruct (Hr w).
Qed.

(** ** The scenarios of the unit tests *)

Example scenario1_third_waits :
  snd (bookTicket "e" "u3" (exec scenario1 emptyStore))
  = inr (Booking.mk "e" "u3" Booking.waiting (Some 1)).
Proof. vm_compute. reflexivity. Qed.

Example scenario2_promotes :
  let s := exec (scenario1 ++ [BookTicket "e" "u3"]) emptyStore in
  snd (cancelBooking "e" "u1" s)
  = inr (Booking.mk "e" "u1" Booking.cancelled None,
         Some (Booking.mk "e" "u3" Booking.confirmed (Some 1)))
  ∧ Event.availableTickets <$> events (fst (cancelBooking "e" "u1" s)) !! "e" = Some 0.
Proof. vm_compute. split; reflexivity. Qed.

(** ** What each method does to the store, branch by branch *)

Lemma is_active_true ob :
  is_active ob = true ↔ ∃ i b, ob = Some (i, b) ∧ Booking.status b ≠ Booking.cancelled.
Proof.
  destruct ob as [[i b]|]; simpl.
  - rewrite bool_decide_eq_true. split; [eauto | by intros (?&?&[= <- <-]&?)].
  - split; [done | by intros (?&?&?&?)].
Qed.

Lemma is_active_false ob :
  is_active ob = false ↔ ∀ i b, ob = Some (i, b) → Booking.status b = Booking.cancelled.
Proof.
  destruct ob as [[i b]|]; simpl.
  - rewrite bool_decide_eq_false. split.
    + intros Hn ?? [= <- <-].
      by destruct (decide (Booking.status b = Booking.cancelled)).
    + intros Hc Hn. by apply Hn, (Hc i b).
  - split; [by intros _ ?? ? | done].
Qed.

Lemma refused_error u err :
  refused u = Some err → err = ValidationError ∨ err = DatabaseError.
Proof.
  unfold refused. destruct (negb (notEmpty u)); [intros [= <-]; by left|].
  destruct (negb (fits_STRING u)); [intros [= <-]; by right|done].
Qed.


Section bookTicket_branches.
Context (e u : string) (s : Store).
Hypothesis (He : falsy e = false) (Hu : falsy u = false).

Lemma bookTicket_duplicate :
  is_active (list_find (booking_of e u) (bookings s)) = true →
  bookTicket e u s = (s, inl DuplicateBooking).
Proof using He Hu.
  intros Ha. unfold bookTicket. rewrite He, Hu. cbn [orb].
  unfold bind, Booking_findOne. by rewrite Ha.
Qed.

Hypothesis (Hfree : is_active (list_find (booking_of e u) (bookings s)) = false).

Lemma bookTicket_no_event :
  events s !! e = None → bookTicket e u s = (s, inl EventNotFound).
Proof using He Hu Hfree.
  intros Hev. unfold bookTicket. rewrite He, Hu. cbn [orb].
  unfold bind, Booking_findOne, Event_findByPk. by rewrite Hfree, Hev.
Qed.

(** With a ticket available the row of the event is written before the
    booking is inserted: a refused insert leaves the decrement behind. *)
Lemma bookTicket_available_refused ev err :
  events s !! e = Some ev → 0 < Event.availableTickets ev →
  refused u = Some err →
  bookTicket e u s
  = (mkStore (alter (Event.add (-1)) e (events s)) (bookings s) (waitingLists s),
     inl err).
Proof using He Hu Hfree.
  intros Hev Hpos Hr. unfold bookTicket. rewrite He, Hu. cbn [orb].
  unfold bind, Booking_findOne, Event_findByPk. rewrite Hfree, Hev.
  rewrite (proj2 (Z.ltb_lt _ _) Hpos).
  unfold Event_decrement, Event_increment, Booking_create. cbn. by rewrite Hr.
Qed.

Lemma bookTicket_sold_out_refused ev err :
  events s !! e = Some ev → Event.availableTickets ev ≤ 0 →
  refused u = Some err →
  bookTicket e u s = (s, inl err).
Proof using He Hu Hfree.
  intros Hev Hpos Hr. unfold bookTicket. rewrite He, Hu. cbn [orb].
  unfold bind, Booking_findOne, Event_findByPk. rewrite Hfree, Hev.
  rewrite (proj2 (Z.ltb_ge _ _) Hpos).
  unfold Booking_create. cbn. by rewrite Hr.
Qed.

Hypothesis (Hstorable : refused u = None).

Lemma bookTicket_available ev :
  events s !! e = Some ev → 0 < Event.availableTickets ev →
  bookTicket e u s
  = (mkStore (alter (Event.add (-1)) e (events s))
       (bookings s ++ [Booking.mk e u Booking.confirmed None])
       (waitingLists s),
     inr (Booking.mk e u Booking.confirmed None)).
Proof using He Hu Hfree Hstorable.
  intros Hev Hpos. unfold bookTicket. rewrite He, Hu. cbn [orb].
  unfold bind, Booking_findOne, Event_findByPk. rewrite Hfree, Hev.
  rewrite (proj2 (Z.ltb_lt _ _) Hpos).
  unfold Event_decrement, Event_increment, Booking_create. cbn.
  by rewrite Hstorable.
Qed.

Lemma bookTicket_sold_out ev :
  events s !! e = Some ev → Event.availableTickets ev ≤ 0 →
  bookTicket e u s
  = match list_find
            (same_slot (WaitingList.mk e u (nextPosition e (waitingLists s))
                          WaitingList.waiting))
            (waitingLists s) with
    | None =>
        (mkStore (events s)
           (bookings s
            ++ [Booking.mk e u Booking.waiting
                  (Some (nextPosition e (waitingLists s)))])
           (waitingLists s
            ++ [WaitingList.mk e u (nextPosition e (waitingLists s))
                  WaitingList.waiting]),
         inr (Booking.mk e u Booking.waiting
                (Some (nextPosition e (waitingLists s)))))
    | Some _ =>
        (mkStore (events s)
           (bookings s
            ++ [Booking.mk e u Booking.waiting
                  (Some (nextPosition e (waitingLists s)))])
           (waitingLists s),
         inl UniqueConstraintError)
    end.
Proof using He Hu Hfree Hstorable.
  intros Hev Hpos. unfold bookTicket. rewrite He, Hu. cbn [orb].
  unfold bind, Booking_findOne, Event_findByPk. rewrite Hfree, Hev.
  rewrite (proj2 (Z.ltb_ge _ _) Hpos).
  unfold WaitingList_create, Booking_create, ret. simpl.
  fold (nextPosition e (waitingLists s)). rewrite Hstorable.
  destruct (list_find (same_slot _) _); reflexivity.
Qed.
End bookTicket_branches.

Lemma bookTicket_invalid e u s :
  falsy e || falsy u = true → bookTicket e u s = (s, inl InvalidArgument).
Proof. intros H. unfold bookTicket. by rewrite H. Qed.

Lemma _assignWaitingUserToTicket_eq e u s :
  _assignWaitingUserToTicket e u s
  = match list_find (booking_with e u Booking.waiting) (bookings s) with
    | Some (j, b) =>
        (mkStore (events s)
           (<[j := Booking.set_status Booking.confirmed b]> (bookings s))
           (assigned_entries e u (waitingLists s)),
         inr (Some (Booking.set_status Booking.confirmed b)))
    | None =>
        (mkStore (events s) (bookings s) (assigned_entries e u (waitingLists s)),
         inr None)
    end.
Proof.
  unfold _assignWaitingUserToTicket, bind, WaitingList_update, Booking_findOne. simpl.
  by destruct (list_find _ _) as [[j b]|].
Qed.

Lemma cancelBooking_invalid e u s :
  falsy e || falsy u = true → cancelBooking e u s = (s, inl InvalidArgument).
Proof. intros H. unfold cancelBooking. by rewrite H. Qed.

Section cancelBooking_branches.
Context (e u : string) (s : Store).
Hypothesis (He : falsy e = false) (Hu : falsy u = false).

Lemma cancelBooking_not_found :
  list_find (booking_with e u Booking.confirmed) (bookings s) = None →
  cancelBooking e u s = (s, inl BookingNotFound).
Proof using He Hu.
  intros Hf. unfold cancelBooking. rewrite He, Hu. cbn [orb].
  unfold bind, Booking_findOne. by rewrite Hf.
Qed.

Context (i : nat) (b : Booking.t).
Hypothesis
  (Hfind : list_find (booking_with e u Booking.confirmed) (bookings s) = Some (i, b)).

Let cb := Booking.set_status Booking.cancelled b.

Lemma cancelBooking_no_event :
  events s !! e = None →
  cancelBooking e u s
  = (mkStore (events s) (<[i := cb]> (bookings s)) (waitingLists s), inl TypeError).
Proof using He Hu Hfind.
  intros Hev. unfold cancelBooking. rewrite He, Hu. cbn [orb].
  unfold bind, Booking_findOne. rewrite Hfind.
  unfold Booking_update, Event_findByPk. cbn [events]. by rewrite Hev.
Qed.

Lemma cancelBooking_no_queue ev :
  events s !! e = Some ev →
  first_ordered Z.ltb (queued_in e) (waitingLists s) = None →
  cancelBooking e u s
  = (mkStore (alter (Event.add 1) e (events s)) (<[i := cb]> (bookings s))
       (waitingLists s),
     inr (cb, None)).
Proof using He Hu Hfind.
  intros Hev Hq. unfold cancelBooking. rewrite He, Hu. cbn [orb].
  unfold bind, Booking_findOne. rewrite Hfind.
  unfold Booking_update, Event_findByPk. cbn [events]. rewrite Hev.
  unfold Event_increment, WaitingList_findOne_asc. cbn [waitingLists].
  by rewrite Hq.
Qed.

Lemma cancelBooking_queue ev w :
  events s !! e = Some ev →
  first_ordered Z.ltb (queued_in e) (waitingLists s) = Some w →
  cancelBooking e u s
  = match list_find (booking_with e (WaitingList.userId w) Booking.waiting)
            (<[i := cb]> (bookings s)) with
    | Some (j, b') =>
        (mkStore (alter (Event.add (-1)) e (alter (Event.add 1) e (events s)))
           (<[j := Booking.set_status Booking.confirmed b']> (<[i := cb]> (bookings s)))
           (assigned_entries e (WaitingList.userId w) (waitingLists s)),
         inr (cb, Some (Booking.set_status Booking.confirmed b')))
    | None =>
        (mkStore (alter (Event.add (-1)) e (alter (Event.add 1) e (events s)))
           (<[i := cb]> (bookings s))
           (assigned_entries e (WaitingList.userId w) (waitingLists s)),
         inr (cb, None))
    end.
Proof using He Hu Hfind.
  intros Hev Hq. unfold cancelBooking. rewrite He, Hu. cbn [orb].
  unfold bind at 1, Booking_findOne. rewrite Hfind.
  unfold bind at 1, Booking_update.
  unfold bind at 1, Event_findByPk. cbn [events]. rewrite Hev.
  unfold bind at 1, Event_increment.
  unfold bind at 1, WaitingList_findOne_asc. cbn [waitingLists]. rewrite Hq.
  unfold bind at 1. rewrite _assignWaitingUserToTicket_eq. cbn [bookings].
  destruct (list_find (booking_with _ _ Booking.waiting) _) as [[j b']|];
    reflexivity.
Qed.
End cancelBooking_branches.

(** Incrementing and then decrementing [availableTickets] restores the row. *)
Lemma alter_add_restore e (m : gmap string Event.t) :
  alter (Event.add (-1)) e (alter (Event.add 1) e m) = m.
Proof.
  apply map_eq. intros k. destruct (decide (e = k)) as [->|Hne].
  - rewrite !lookup_alter_eq. destruct (m !! k) as [[n t a]|]; [|done].
    simpl. unfold Event.add. simpl. do 2 f_equal. lia.
  - by rewrite !lookup_alter_ne.
Qed.

Lemma getEventStatus_eq p others1 others2 s :
  getEventStatus p others1 others2 s
  = if falsy (text p) then (s, inl InvalidArgument)
    else match p with
         | NotUuid _ => (s, inl DatabaseError)
         | Uuid e =>
             match events s !! e with
             | None => (s, inl EventNotFound)
             | Some ev =>
                 (others2 (others1 s),
                  inr (EventStatus.mk e (Event.name ev) (Event.totalTickets ev)
                         (Event.availableTickets ev)
                         (count (booking_in e Booking.confirmed)
                            (bookings (others2 (others1 s))))
                         (count (queued_in e) (waitingLists (others1 s)))))
             end
         end.
Proof.
  unfold getEventStatus. destruct (falsy (text p)); [done|].
  destruct p as [e|t]; [|done].
  unfold bind, Event_findByPk. by destruct (events s !! e).
Qed.

Lemma getEventStatus_store p s : fst (getEventStatus p id id s) = s.
Proof.
  rewrite getEventStatus_eq. destruct (falsy (text p)); [done|].
  destruct p as [e|t]; [|done]. by destruct (events s !! e).
Qed.

Lemma initializeEvent_eq id name n s :
  initializeEvent id name n s
  = if falsy name then (s, inl InvalidArgument)
    else if n <? 1 then (s, inl InvalidArgument)
    else if negb (notEmpty name) then (s, inl ValidationError)
    else if negb (fits_STRING name) || negb (fits_INTEGER n)
    then (s, inl DatabaseError)
    else match events s !! id with
         | Some _ => (s, inl UniqueConstraintError)
         | None => (mkStore (<[id := Event.mk name n n]> (events s)) (bookings s)
                      (waitingLists s),
                    inr (id, Event.mk name n n))
         end.
Proof.
  unfold initializeEvent. destruct (falsy name); [done|].
  destruct (n <? 1) eqn:Hn; [done|]. unfold Event_create. cbn.
  rewrite Hn. assert ((n <? 0) = false) as -> by lia.
  rewrite !orb_false_r. destruct (negb (notEmpty name)); [done|].
  unfold fits_STRING.
  by destruct (negb (String.length name <=? 255)%nat), (negb (fits_INTEGER n)).
Qed.

(** A call of [initializeEvent] either inserts the event or leaves the store
    as it is. *)
Lemma initializeEvent_store id name n s :
  fst (initializeEvent id name n s) = s
  ∨ events s !! id = None
    ∧ 1 ≤ n
    ∧ initializeEvent id name n s
      = (mkStore (<[id := Event.mk name n n]> (events s)) (bookings s)
           (waitingLists s),
         inr (id, Event.mk name n n)).
Proof.
  rewrite initializeEvent_eq. destruct (falsy name); [by left|].
  destruct (n <? 1) eqn:Hn; [by left|].
  destruct (negb (notEmpty name)); [by left|].
  destruct (negb (fits_STRING name) || negb (fits_INTEGER n)); [by left|].
  destruct (events s !! id); [by left|]. right. split; [done|]. split; [lia|done].
Qed.


(** ** Executions stay within the reachable stores *)

Lemma reachable_exec rs s : reachable s → reachable (exec rs s).
Proof.
  revert s. induction rs as [|r rs IH]; intros s Hs; [done|].
  apply IH. by constructor.
Qed.

Lemma exec_app rs1 rs2 s : exec (rs1 ++ rs2) s = exec rs2 (exec rs1 s).
Proof. apply foldl_app. Qed.


(** ** Rebooking after a cancellation *)

(** C1.  The claim that a requester never holds two active bookings for one
    event fails on the code: [bookTicket] looks the pair up without a status
    filter, so the cancelled row of an earlier booking hides the active one.
    After book, cancel, book, book by the same requester the store, which is
    reachable, holds two confirmed bookings of that requester for the event;
    on a sold-out event the same calls leave the requester with a confirmed
    and a waiting booking once the first of the two has been promoted. *)
Theorem rebook_after_cancel_two_confirmed :
  let s := exec (rebook_trace ++ [BookTicket "e" "u1"]) emptyStore in
  let s' := exec rebook_sold_out_trace emptyStore in
  reachable s
  ∧ filter (booking_of "e" "u1") (bookings s)
    = [Booking.mk "e" "u1" Booking.cancelled None;
       Booking.mk "e" "u1" Booking.confirmed None;
       Booking.mk "e" "u1" Booking.confirmed None]
  ∧ Event.availableTickets <$> events s !! "e" = Some 0
  ∧ reachable s'
  ∧ filter (booking_of "e" "a") (bookings s')
    = [Booking.mk "e" "a" Booking.cancelled None;
       Booking.mk "e" "a" Booking.confirmed (Some 1);
       Booking.mk "e" "a" Booking.waiting (Some 2)].
Proof.
  split; [apply reachable_exec; constructor|].
  do 2 (split; [vm_compute; reflexivity|]).
  split; [apply reachable_exec; constructor|].
  vm_compute. reflexivity.
Qed.

(** C7.  The claim that [bookTicket] fails with [DuplicateBooking] whenever a
    non-cancelled booking of the pair exists fails on the code: after book,
    cancel, book the requester holds a confirmed booking, yet the next
    [bookTicket] of the same pair returns a second confirmed booking. *)
Theorem rebook_twice_not_rejected :
  let s := exec rebook_trace emptyStore in
  bookings s !! 1%nat = Some (Booking.mk "e" "u1" Booking.confirmed None)
  ∧ list_find (booking_of "e" "u1") (bookings s)
    = Some (0%nat, Booking.mk "e" "u1" Booking.cancelled None)
  ∧ snd (bookTicket "e" "u1" s) = inr (Booking.mk "e" "u1" Booking.confirmed None).
Proof. vm_compute. repeat split; reflexivity. Qed.

(** One direction of C7 does hold: [DuplicateBooking] is only raised when the
    pair has a non-cancelled booking, and nothing is written. *)
Lemma bookTicket_DuplicateBooking_sound e u s :
  snd (bookTicket e u s) = inl DuplicateBooking →
  fst (bookTicket e u s) = s
  ∧ ∃ b, b ∈ bookings s ∧ booking_of e u b ∧ Booking.status b ≠ Booking.cancelled.
Proof.
  destruct (falsy e || falsy u) eqn:Hv.
  { by rewrite bookTicket_invalid. }
  apply orb_false_elim in Hv as [He Hu].
  destruct (is_active (list_find (booking_of e u) (bookings s))) eqn:Ha.
  - rewrite bookTicket_duplicate by done. intros _. split; [done|].
    apply is_active_true in Ha as (i & b & Hf & Hst).
    apply list_find_Some in Hf as (Hl & Hb & _).
    exists b. split; [by eapply list_elem_of_lookup_2 | done].
  - destruct (events s !! e) as [ev|] eqn:Hev.
    + destruct (refused u) as [err|] eqn:Hr.
      { destruct (refused_error _ _ Hr) as [-> | ->];
          destruct (Z.lt_ge_cases 0 (Event.availableTickets ev));
          by (erewrite bookTicket_available_refused by done)
             || by (erewrite bookTicket_sold_out_refused by done). }
      destruct (Z.lt_ge_cases 0 (Event.availableTickets ev)).
      * by erewrite bookTicket_available.
      * erewrite bookTicket_sold_out by done. by destruct (list_find (same_slot _) _).
    + by rewrite bookTicket_no_event.
Qed.

(** Scenario 3: a requester without any earlier row who obtains a booking is
    rejected when booking again. *)
Lemma bookTicket_twice_fresh e u s b :
  (∀ b', b' ∈ bookings s → ¬ booking_of e u b') →
  snd (bookTicket e u s) = inr b →
  snd (bookTicket e u (fst (bookTicket e u s))) = inl DuplicateBooking.
Proof.
  intros Hnone Hok.
  destruct (falsy e || falsy u) eqn:Hv.
  { rewrite bookTicket_invalid in Hok by done. by simplify_eq. }
  apply orb_false_elim in Hv as [He Hu].
  assert (Hf : list_find (booking_of e u) (bookings s) = None).
  { apply list_find_None, Forall_forall. intros b' Hb'.
    apply Hnone, Hb'. }
  assert (Ha : is_active (list_find (booking_of e u) (bookings s)) = false)
    by by rewrite Hf.
  assert (Hnew : ∃ st p, bookings (fst (bookTicket e u s))
                         = bookings s ++ [Booking.mk e u st p]
                         ∧ st ≠ Booking.cancelled).
  { destruct (events s !! e) as [ev|] eqn:Hev.
    - destruct (refused u) as [err|] eqn:Hr.
      { destruct (Z.lt_ge_cases 0 (Event.availableTickets ev));
          [erewrite bookTicket_available_refused in Hok by done
          |erewrite bookTicket_sold_out_refused in Hok by done];
          by simplify_eq. }
      destruct (Z.lt_ge_cases 0 (Event.availableTickets ev)).
      + erewrite bookTicket_available by done. by eexists _, _.
      + erewrite bookTicket_sold_out by done.
        destruct (list_find (same_slot _) _); by eexists _, _.
    - rewrite bookTicket_no_event in Hok by done. by simplify_eq. }
  destruct Hnew as (st & p & Hbs & Hst).
  rewrite bookTicket_duplicate; [done..|].
  apply is_active_true. exists (length (bookings s)), (Booking.mk e u st p).
  split; [|done]. rewrite Hbs. apply list_find_Some. split_and!.
  - by rewrite lookup_app_r, Nat.sub_diag.
  - done.
  - intros j y Hy Hj. rewrite lookup_app_l in Hy by done.
    apply Hnone. by eapply list_elem_of_lookup_2.
Qed.

(** ** The waiting branch and the unique index *)

(** C2.  The claim that a sold-out [bookTicket] of a requester without active
    booking always returns a waiting booking and creates the matching queue
    entry fails on the code: once the only waiting requester has been
    promoted, the next position is computed as 1 again, the waiting booking
    row is inserted, and the insert of the queue entry is refused by the
    unique index on [(eventId, position)].  The call throws and leaves the
    booking row without queue entry. *)
Theorem sold_out_booking_hits_unique_index :
  let s := exec drained_queue_trace emptyStore in
  Event.availableTickets <$> events s !! "e" = Some 0
  ∧ filter (booking_of "e" "u3") (bookings s) = []
  ∧ bookTicket "e" "u3" s
    = (mkStore (events s)
         (bookings s ++ [Booking.mk "e" "u3" Booking.waiting (Some 1)])
         (waitingLists s),
       inl UniqueConstraintError).
Proof. vm_compute. repeat split; reflexivity. Qed.

(** How the collision comes about: [_getNextWaitingPosition] only looks at
    entries that are still waiting.  Position 1 is given to "u2", whose entry
    still occupies it after the promotion, and is computed again for the next
    requester; it reaches the booking row of the call that throws, never a
    second queue entry (see [queue_positions_increase]). *)
Example position_recomputed_after_promotion :
  let s := exec drained_queue_trace emptyStore in
  snd (bookTicket "e" "u2" (exec (take 2 drained_queue_trace) emptyStore))
  = inr (Booking.mk "e" "u2" Booking.waiting (Some 1))
  ∧ waitingLists s = [WaitingList.mk "e" "u2" 1 WaitingList.assigned]
  ∧ _getNextWaitingPosition "e" s = (s, inr 1)
  ∧ bookings (fst (bookTicket "e" "u3" s)) !! 2%nat
    = Some (Booking.mk "e" "u3" Booking.waiting (Some 1)).
Proof. vm_compute. repeat split; reflexivity. Qed.

(** Apart from that collision the two branches are as C2 describes them: for
    a requester without active booking whose id the tables accept, a ticket is
    sold when one is available, and otherwise the requester is queued at the
    position after the last waiting entry (see [nextPosition_max],
    [nextPosition_empty]) provided no entry of the event, waiting or assigned,
    holds that position. *)
Lemma bookTicket_when_free e u s ev :
  falsy e = false → falsy u = false → refused u = None →
  (∀ b, b ∈ bookings s → booking_of e u b → Booking.status b = Booking.cancelled) →
  events s !! e = Some ev →
  (0 < Event.availableTickets ev →
   bookTicket e u s
   = (mkStore (alter (Event.add (-1)) e (events s))
        (bookings s ++ [Booking.mk e u Booking.confirmed None])
        (waitingLists s),
      inr (Booking.mk e u Booking.confirmed None)))
  ∧ (Event.availableTickets ev ≤ 0 →
     (∀ w, w ∈ waitingLists s → WaitingList.eventId w = e →
           WaitingList.position w ≠ nextPosition e (waitingLists s)) →
     bookTicket e u s
     = (mkStore (events s)
          (bookings s
           ++ [Booking.mk e u Booking.waiting (Some (nextPosition e (waitingLists s)))])
          (waitingLists s
           ++ [WaitingList.mk e u (nextPosition e (waitingLists s))
                 WaitingList.waiting]),
        inr (Booking.mk e u Booking.waiting
               (Some (nextPosition e (waitingLists s)))))).
Proof.
  intros He Hu Hr Hfree Hev.
  assert (Ha : is_active (list_find (booking_of e u) (bookings s)) = false).
  { apply is_active_false. intros i b (Hi & Hb & _)%list_find_Some.
    apply Hfree; [by eapply list_elem_of_lookup_2 | done]. }
  split.
  - intros Hpos. by erewrite bookTicket_available.
  - intros Hpos Hslot. erewrite bookTicket_sold_out by done.
    destruct (list_find (same_slot _) _) as [[k w]|] eqn:Hf; [|done].
    apply list_find_Some in Hf as (Hk & [Hwe Hwp] & _). cbn in Hwe, Hwp.
    destruct (Hslot w); [by eapply list_elem_of_lookup_2 | done..].
Qed.


(** ** Cancelling *)

(** C8.  With both identifiers present, [cancelBooking] fails with
    [BookingNotFound] exactly when the requester has no confirmed booking for
    the event; in particular it does so when all the requester's bookings
    for the event are waiting or cancelled, and the failure writes nothing. *)
Theorem cancelBooking_BookingNotFound_iff e u s :
  falsy e = false → falsy u = false →
  (snd (cancelBooking e u s) = inl BookingNotFound
   ↔ ∀ b, b ∈ bookings s → ¬ booking_with e u Booking.confirmed b)
  ∧ ((∀ b, b ∈ bookings s → booking_of e u b →
        Booking.status b = Booking.waiting ∨ Booking.status b = Booking.cancelled) →
     snd (cancelBooking e u s) = inl BookingNotFound)
  ∧ (snd (cancelBooking e u s) = inl BookingNotFound →
     fst (cancelBooking e u s) = s).
Proof.
  intros He Hu.
  assert (Hiff : snd (cancelBooking e u s) = inl BookingNotFound
                 ↔ ∀ b, b ∈ bookings s → ¬ booking_with e u Booking.confirmed b).
  { destruct (list_find (booking_with e u Booking.confirmed) (bookings s))
      as [[i b]|] eqn:Hf.
    - split.
      + destruct (events s !! e) as [ev|] eqn:Hev.
        * destruct (first_ordered Z.ltb (queued_in e) (waitingLists s))
            as [w|] eqn:Hq.
          -- erewrite cancelBooking_queue by done.
             by destruct (list_find (booking_with _ _ Booking.waiting) _) as [[??]|].
          -- by erewrite cancelBooking_no_queue.
        * by erewrite cancelBooking_no_event.
      + intros Hall. apply list_find_Some in Hf as (Hl & Hb & _).
        destruct (Hall b); [by eapply list_elem_of_lookup_2 | done].
    - rewrite cancelBooking_not_found by done.
      split; [intros _ | done].
      apply list_find_None in Hf. by apply Forall_forall. }
  split_and!; [done | |].
  - intros Hall. apply Hiff. intros b Hb (Hbe & Hbu & Hst).
    destruct (Hall b Hb) as [Hs|Hs]; [done | congruence..].
  - intros Hnf.
    destruct (list_find (booking_with e u Booking.confirmed) (bookings s))
      as [[i b]|] eqn:Hf.
    + apply list_find_Some in Hf as (Hl & Hb & _).
      destruct (proj1 Hiff Hnf b); [by eapply list_elem_of_lookup_2 | done].
    + by rewrite cancelBooking_not_found.
Qed.

Lemma cancelBooking_BookingNotFound_iff_witness :
  (snd (cancelBooking "e" "u3" (exec (scenario1 ++ [BookTicket "e" "u3"]) emptyStore))
   = inl BookingNotFound
   ↔ ∀ b, b ∈ bookings (exec (scenario1 ++ [BookTicket "e" "u3"]) emptyStore) →
          ¬ booking_with "e" "u3" Booking.confirmed b)
  ∧ ((∀ b, b ∈ bookings (exec (scenario1 ++ [BookTicket "e" "u3"]) emptyStore) →
           booking_of "e" "u3" b →
           Booking.status b = Booking.waiting ∨ Booking.status b = Booking.cancelled) →
     snd (cancelBooking "e" "u3" (exec (scenario1 ++ [BookTicket "e" "u3"]) emptyStore))
     = inl BookingNotFound)
  ∧ (snd (cancelBooking "e" "u3" (exec (scenario1 ++ [BookTicket "e" "u3"]) emptyStore))
     = inl BookingNotFound →
     fst (cancelBooking "e" "u3" (exec (scenario1 ++ [BookTicket "e" "u3"]) emptyStore))
     = exec (scenario1 ++ [BookTicket "e" "u3"]) emptyStore).
Proof.
  apply (cancelBooking_BookingNotFound_iff "e" "u3"
           (exec (scenario1 ++ [BookTicket "e" "u3"]) emptyStore));
    reflexivity.
Defined.

(** Scenario 4 and the cancellation of an already cancelled booking. *)
Example cancel_ghost :
  cancelBooking "e" "ghost" (exec scenario1 emptyStore)
  = (exec scenario1 emptyStore, inl BookingNotFound).
Proof. vm_compute. reflexivity. Qed.

Example cancel_twice :
  let s := handle (exec scenario1 emptyStore) (CancelBooking "e" "u1") in
  cancelBooking "e" "u1" s = (s, inl BookingNotFound).
Proof. vm_compute. reflexivity. Qed.

(** C10.  When [cancelBooking] finds an earliest active queue entry whose
    requester has no waiting booking, it still marks the requester's entries
    assigned and still takes the freed ticket back (the event row is as
    before the call), the only change to the bookings is the cancellation,
    and the assigned booking it returns is null. *)
Theorem cancelBooking_entry_without_booking e u s i b ev w :
  falsy e = false → falsy u = false →
  list_find (booking_with e u Booking.confirmed) (bookings s) = Some (i, b) →
  events s !! e = Some ev →
  first_ordered Z.ltb (queued_in e) (waitingLists s) = Some w →
  (∀ b', b' ∈ bookings s →
         ¬ booking_with e (WaitingList.userId w) Booking.waiting b') →
  snd (cancelBooking e u s) = inr (Booking.set_status Booking.cancelled b, None)
  ∧ events (fst (cancelBooking e u s)) = events s
  ∧ bookings (fst (cancelBooking e u s))
    = <[i := Booking.set_status Booking.cancelled b]> (bookings s)
  ∧ WaitingList.set_status WaitingList.assigned w
    ∈ waitingLists (fst (cancelBooking e u s))
  ∧ (∀ w', w' ∈ waitingLists (fst (cancelBooking e u s)) →
           entry_of e (WaitingList.userId w) w' →
           WaitingList.status w' = WaitingList.assigned).
Proof.
  intros He Hu Hf Hev Hq Hnone.
  erewrite cancelBooking_queue by done.
  assert (Hnf : list_find (booking_with e (WaitingList.userId w) Booking.waiting)
                  (<[i := Booking.set_status Booking.cancelled b]> (bookings s))
                = None).
  { apply list_find_None, Forall_forall. intros b' Hb' Hw'.
    apply list_elem_of_lookup in Hb' as [j Hj].
    destruct (decide (i = j)) as [->|Hne].
    - apply list_lookup_insert_Some in Hj as [(_ & <- & _)|[? _]]; [|done].
      by destruct Hw' as (_ & _ & ?).
    - rewrite list_lookup_insert_ne in Hj by done.
      eapply Hnone; [by eapply list_elem_of_lookup_2 | done]. }
  rewrite Hnf. cbn [fst snd events bookings waitingLists].
  apply first_ordered_Some in Hq as [Hin [Hwe Hws]].
  split_and!; [done | apply alter_add_restore | done | |].
  - unfold assigned_entries. apply list_elem_of_fmap. exists w. split; [|done].
    by rewrite decide_True.
  - unfold assigned_entries. intros w' [w0 [-> Hw0]]%list_elem_of_fmap Hent.
    destruct (decide (entry_of e (WaitingList.userId w) w0)) as [|Hn]; [done|].
    by destruct Hn.
Qed.

Lemma cancelBooking_entry_without_booking_witness :
  snd (cancelBooking "e" "u1" entry_without_booking)
  = inr (Booking.mk "e" "u1" Booking.cancelled None, None)
  ∧ events (fst (cancelBooking "e" "u1" entry_without_booking))
    = events entry_without_booking
  ∧ bookings (fst (cancelBooking "e" "u1" entry_without_booking))
    = [Booking.mk "e" "u1" Booking.cancelled None]
  ∧ WaitingList.mk "e" "u2" 1 WaitingList.assigned
    ∈ waitingLists (fst (cancelBooking "e" "u1" entry_without_booking))
  ∧ (∀ w', w' ∈ waitingLists (fst (cancelBooking "e" "u1" entry_without_booking)) →
           entry_of "e" "u2" w' →
           WaitingList.status w' = WaitingList.assigned).
Proof.
  apply (cancelBooking_entry_without_booking "e" "u1" entry_without_booking 0%nat
           (Booking.mk "e" "u1" Booking.confirmed None)
           (Event.mk "Concert" 1 0)
           (WaitingList.mk "e" "u2" 1 WaitingList.waiting));
    try reflexivity.
  intros b' Hb' (_ & _ & Hst).
  apply list_elem_of_singleton in Hb' as ->. discriminate Hst.
Defined.


(** ** The status aggregate *)

(** C9 as stated fails, in three ways.  The waiting count is not derived from
    the [Booking] rows: in the reachable store below the event has one booking
    with status waiting and the aggregate reports a waiting count of 0.  And
    an unknown id does not always give [EventNotFound]: the empty id is
    rejected as a missing argument, and an id that is not a UUID, which the
    route lets through, makes the lookup fail in the database. *)
Lemma getEventStatus_not_as_claimed :
  let s := exec (drained_queue_trace ++ [BookTicket "e" "u3"]) emptyStore in
  (reachable s
   ∧ count (booking_in "e" Booking.waiting) (bookings s) = 1
   ∧ snd (getEventStatus (Uuid "e") id id s)
     = inr (EventStatus.mk "e" "Concert" 1 0 1 0))
  ∧ (events s !! "" = None
     ∧ snd (getEventStatus (NotUuid "") id id s) = inl InvalidArgument)
  ∧ (events s !! "invalid-uuid" = None
     ∧ snd (getEventStatus (NotUuid "invalid-uuid") id id s) = inl DatabaseError).
Proof.
  split; [|by vm_compute].
  split; [apply reachable_exec; constructor|].
  vm_compute. split; reflexivity.
Qed.

(** C9, amended.  [getEventStatus] rejects an empty id as a missing argument,
    fails in the database on an id that is not a UUID, and fails with
    [EventNotFound] on a UUID that no event has; in none of these cases is
    anything written.  Otherwise it returns the [availableTickets] stored in
    the event's row when it is read, the number of [WaitingList] rows of the
    event with status waiting when the second query runs, and the number of
    [Booking] rows of the event with status confirmed when the third query
    runs; the store it leaves is the one the other calls have made, the
    method writes nothing. *)
Theorem getEventStatus_aggregate p others1 others2 s :
  (falsy (text p) = true →
   getEventStatus p others1 others2 s = (s, inl InvalidArgument))
  ∧ (falsy (text p) = false →
     (∀ t, p = NotUuid t →
        getEventStatus p others1 others2 s = (s, inl DatabaseError))
     ∧ (∀ e, p = Uuid e → events s !! e = None →
          getEventStatus p others1 others2 s = (s, inl EventNotFound))
     ∧ (∀ e ev, p = Uuid e → events s !! e = Some ev →
          fst (getEventStatus p others1 others2 s) = others2 (others1 s)
          ∧ ∃ st, snd (getEventStatus p others1 others2 s) = inr st
             ∧ EventStatus.eventId st = e
             ∧ EventStatus.eventName st = Event.name ev
             ∧ EventStatus.totalTickets st = Event.totalTickets ev
             ∧ EventStatus.availableTickets st = Event.availableTickets ev
             ∧ EventStatus.waitingListCount st
               = Z.of_nat (length (filter (λ w, WaitingList.eventId w = e
                                               ∧ WaitingList.status w
                                                 = WaitingList.waiting)
                                     (waitingLists (others1 s))))
             ∧ EventStatus.bookedTickets st
               = Z.of_nat (length (filter (λ b, Booking.eventId b = e
                                               ∧ Booking.status b = Booking.confirmed)
                                     (bookings (others2 (others1 s))))))).
Proof.
  rewrite getEventStatus_eq. split; [by intros ->|]. intros ->.
  split; [by intros t ->|]. split.
  - by intros e -> ->.
  - intros e ev -> ->. split; [done|]. eexists. split; [reflexivity|].
    by split_and!.
Qed.

Lemma getEventStatus_aggregate_witness :
  let s := exec scenario1 emptyStore in
  let s1 := handle s (BookTicket "e" "u3") in
  let s2 := handle s1 (CancelBooking "e" "u1") in
  getEventStatus (Uuid "e") (λ _, s1) (λ _, s2) s
  = (s2, inr (EventStatus.mk "e" "Concert" 2 0 2 1))
  ∧ getEventStatus (Uuid "f") (λ _, s1) (λ _, s2) s = (s, inl EventNotFound)
  ∧ getEventStatus (NotUuid "invalid-uuid") (λ _, s1) (λ _, s2) s
    = (s, inl DatabaseError)
  ∧ getEventStatus (NotUuid "") (λ _, s1) (λ _, s2) s = (s, inl InvalidArgument).
Proof.
  intros s s1 s2.
  destruct (getEventStatus_aggregate (Uuid "e") (λ _, s1) (λ _, s2) s)
    as [_ Hfound].
  destruct (Hfound eq_refl) as (_ & _ & Hfound').
  assert (Hev : events s !! "e" = Some (Event.mk "Concert" 2 0))
    by (vm_compute; reflexivity).
  destruct (Hfound' "e" (Event.mk "Concert" 2 0) eq_refl Hev)
    as (Hstore & st & Hst & Hid & Hname & Htotal & Havail & Hwait & Hbooked).
  split.
  { destruct (getEventStatus (Uuid "e") (λ _, s1) (λ _, s2) s) as [s' res].
    cbn [fst snd] in Hstore, Hst. rewrite Hstore, Hst. f_equal. f_equal.
    destruct st as [i n t a b w]. cbn in Hid, Hname, Htotal, Havail, Hwait, Hbooked.
    rewrite Hid, Hname, Htotal, Havail, Hwait, Hbooked.
    vm_compute. reflexivity. }
  split.
  { destruct (getEventStatus_aggregate (Uuid "f") (λ _, s1) (λ _, s2) s)
      as [_ Hf]. destruct (Hf eq_refl) as (_ & Hnone & _).
    apply (Hnone "f"); [reflexivity | vm_compute; reflexivity]. }
  split.
  { destruct (getEventStatus_aggregate (NotUuid "invalid-uuid")
                (λ _, s1) (λ _, s2) s) as [_ Hf].
    destruct (Hf eq_refl) as (Hnot & _). by apply (Hnot "invalid-uuid"). }
  destruct (getEventStatus_aggregate (NotUuid "") (λ _, s1) (λ _, s2) s)
    as [Hf _]. by apply Hf.
Defined.

(** Scenario 5 and the status test of the unit tests. *)
Example status_unknown_event :
  snd (getEventStatus (Uuid "unknown") id id (exec scenario1 emptyStore))
  = inl EventNotFound.
Proof. vm_compute. reflexivity. Qed.

Example status_sold_out :
  snd (getEventStatus (Uuid "e") id id
         (exec (scenario1 ++ [BookTicket "e" "u3"]) emptyStore))
  = inr (EventStatus.mk "e" "Concert" 2 0 2 1).
Proof. vm_compute. reflexivity. Qed.


(** ** Counting rows under the writes of the service *)

Section count.
Context {A : Type} (P : A → Prop) `{∀ x, Decision (P x)}.

Lemma count_nonneg rows : 0 ≤ count P rows.
Proof. unfold count. lia. Qed.

Lemma count_app rows rows' : count P (rows ++ rows') = count P rows + count P rows'.
Proof. unfold count. rewrite filter_app, length_app. lia. Qed.

Lemma count_cons x rows :
  count P (x :: rows) = (if decide (P x) then 1 else 0) + count P rows.
Proof.
  unfold count. rewrite filter_cons. destruct (decide (P x)); simpl; lia.
Qed.

Lemma count_snoc rows x :
  count P (rows ++ [x]) = count P rows + (if decide (P x) then 1 else 0).
Proof.
  rewrite count_app, count_cons. change (count P []) with 0. lia.
Qed.

Lemma count_insert rows i x y :
  rows !! i = Some x →
  count P (<[i := y]> rows)
  = count P rows - (if decide (P x) then 1 else 0) + (if decide (P y) then 1 else 0).
Proof.
  intros Hi.
  rewrite insert_take_drop by by eapply lookup_lt_Some.
  rewrite <- (take_drop_middle rows i x Hi) at 3.
  rewrite !count_app, !count_cons. lia.
Qed.
End count.

(** ** The store after a call *)

(** The promoted booking is looked up after the cancellation has been
    written; the cancelled row is neither found nor does it hide a row. *)
Lemma find_waiting_after_cancel e u rows i b j b' :
  rows !! i = Some b → Booking.status b = Booking.confirmed →
  list_find (booking_with e u Booking.waiting)
    (<[i := Booking.set_status Booking.cancelled b]> rows) = Some (j, b') →
  j ≠ i ∧ rows !! j = Some b' ∧ booking_with e u Booking.waiting b'
  ∧ list_find (booking_with e u Booking.waiting) rows = Some (j, b').
Proof.
  intros Hi Hst (Hj & Hb' & Hmin)%list_find_Some.
  assert (Hne : j ≠ i).
  { intros ->. rewrite list_lookup_insert_eq in Hj by by eapply lookup_lt_Some.
    simplify_eq. by destruct Hb' as (_ & _ & ?). }
  rewrite list_lookup_insert_ne in Hj by done.
  split_and!; [done..|].
  apply list_find_Some. split_and!; [done..|].
  intros k y Hk Hlt Hy. destruct (decide (k = i)) as [->|Hki].
  - simplify_eq. destruct Hy as (_ & _ & ?). congruence.
  - apply (Hmin k y); [|done..]. by rewrite list_lookup_insert_ne.
Qed.

Lemma find_waiting_after_cancel_None e u rows i b :
  rows !! i = Some b → Booking.status b = Booking.confirmed →
  list_find (booking_with e u Booking.waiting)
    (<[i := Booking.set_status Booking.cancelled b]> rows) = None →
  ∀ b', b' ∈ rows → Booking.status b' ≠ Booking.confirmed →
        ¬ booking_with e u Booking.waiting b'.
Proof.
  intros Hi Hb Hnone%list_find_None b' [k Hk]%list_elem_of_lookup Hst.
  rewrite Forall_forall in Hnone. apply Hnone.
  apply list_elem_of_lookup. exists k.
  destruct (decide (k = i)) as [->|Hki]; [|by rewrite list_lookup_insert_ne].
  by simplify_eq.
Qed.

(** The ways [bookTicket] leaves the store: as it was; a ticket taken and
    the booking inserted, or the ticket taken and the insert refused; a
    waiting booking inserted, with or without its queue entry. *)
Lemma bookTicket_store e u s :
  fst (bookTicket e u s) = s
  ∨ (∃ ev, events s !! e = Some ev ∧ 0 < Event.availableTickets ev
           ∧ (fst (bookTicket e u s)
              = mkStore (alter (Event.add (-1)) e (events s))
                  (bookings s ++ [Booking.mk e u Booking.confirmed None])
                  (waitingLists s)
              ∨ fst (bookTicket e u s)
                = mkStore (alter (Event.add (-1)) e (events s))
                    (bookings s) (waitingLists s)))
  ∨ (∃ ev, events s !! e = Some ev ∧ Event.availableTickets ev ≤ 0
           ∧ (fst (bookTicket e u s)
              = mkStore (events s)
                  (bookings s
                   ++ [Booking.mk e u Booking.waiting
                         (Some (nextPosition e (waitingLists s)))])
                  (waitingLists s)
              ∨ fst (bookTicket e u s)
                = mkStore (events s)
                    (bookings s
                     ++ [Booking.mk e u Booking.waiting
                           (Some (nextPosition e (waitingLists s)))])
                    (waitingLists s
                     ++ [WaitingList.mk e u (nextPosition e (waitingLists s))
                           WaitingList.waiting]))).
Proof.
  destruct (falsy e || falsy u) eqn:Hv.
  { left. by rewrite bookTicket_invalid. }
  apply orb_false_elim in Hv as [He Hu].
  destruct (is_active (list_find (booking_of e u) (bookings s))) eqn:Ha.
  { left. by rewrite bookTicket_duplicate. }
  destruct (events s !! e) as [ev|] eqn:Hev.
  - destruct (refused u) as [err|] eqn:Hr.
    { destruct (Z.lt_ge_cases 0 (Event.availableTickets ev)).
      + right; left. exists ev. erewrite bookTicket_available_refused by done.
        split_and!; [done..|]. by right.
      + left. by erewrite bookTicket_sold_out_refused. }
    destruct (Z.lt_ge_cases 0 (Event.availableTickets ev)).
    + right; left. exists ev. erewrite bookTicket_available by done.
      split_and!; [done..|]. by left.
    + right; right. exists ev. erewrite bookTicket_sold_out by done.
      split_and!; [done..|].
      destruct (list_find (same_slot _) _); [by left | by right].
  - left. by rewrite bookTicket_no_event.
Qed.

(** The ways [cancelBooking] leaves the store. *)
Lemma cancelBooking_store e u s :
  fst (cancelBooking e u s) = s
  ∨ ∃ i b, bookings s !! i = Some b ∧ booking_with e u Booking.confirmed b
    ∧ ((events s !! e = None
        ∧ fst (cancelBooking e u s)
          = mkStore (events s)
              (<[i := Booking.set_status Booking.cancelled b]> (bookings s))
              (waitingLists s))
       ∨ (is_Some (events s !! e)
          ∧ first_ordered Z.ltb (queued_in e) (waitingLists s) = None
          ∧ fst (cancelBooking e u s)
            = mkStore (alter (Event.add 1) e (events s))
                (<[i := Booking.set_status Booking.cancelled b]> (bookings s))
                (waitingLists s))
       ∨ (∃ w, is_Some (events s !! e)
          ∧ first_ordered Z.ltb (queued_in e) (waitingLists s) = Some w
          ∧ ((list_find (booking_with e (WaitingList.userId w) Booking.waiting)
                (bookings s) = None
              ∧ fst (cancelBooking e u s)
                = mkStore (events s)
                    (<[i := Booking.set_status Booking.cancelled b]> (bookings s))
                    (assigned_entries e (WaitingList.userId w) (waitingLists s)))
             ∨ (∃ j b', j ≠ i
                ∧ list_find (booking_with e (WaitingList.userId w) Booking.waiting)
                    (bookings s) = Some (j, b')
                ∧ fst (cancelBooking e u s)
                  = mkStore (events s)
                      (<[j := Booking.set_status Booking.confirmed b']>
                         (<[i := Booking.set_status Booking.cancelled b]> (bookings s)))
                      (assigned_entries e (WaitingList.userId w) (waitingLists s)))))).
Proof.
  destruct (falsy e || falsy u) eqn:Hv.
  { left. by rewrite cancelBooking_invalid. }
  apply orb_false_elim in Hv as [He Hu].
  destruct (list_find (booking_with e u Booking.confirmed) (bookings s))
    as [[i b]|] eqn:Hf; [|left; by rewrite cancelBooking_not_found].
  right. exists i, b.
  pose proof Hf as (Hi & Hb & _)%list_find_Some.
  split_and!; [done..|].
  destruct (events s !! e) as [ev|] eqn:Hev;
    [|left; by erewrite cancelBooking_no_event].
  right.
  destruct (first_ordered Z.ltb (queued_in e) (waitingLists s)) as [w|] eqn:Hq;
    [|left; by erewrite cancelBooking_no_queue].
  right. exists w. split_and!; [done..|].
  erewrite cancelBooking_queue by done. rewrite alter_add_restore.
  destruct (list_find (booking_with e (WaitingList.userId w) Booking.waiting)
              (<[i := _]> (bookings s))) as [[j b']|] eqn:Hw.
  - right. exists j, b'.
    apply find_waiting_after_cancel in Hw as (? & ? & ? & ?);
      [done.. | by destruct Hb as (_ & _ & ?)].
  - left. split; [|done].
    apply list_find_None, Forall_forall. intros b' Hb' Hw'.
    eapply (find_waiting_after_cancel_None e (WaitingList.userId w) _ i b);
      [done | by destruct Hb as (_ & _ & ?) | done | done | | done].
    destruct Hw' as (_ & _ & ->). done.
Qed.


(** ** Rows of a table after an in-place update *)

Lemma elem_of_insert_inv {A} (l : list A) i x y : y ∈ <[i := x]> l → y = x ∨ y ∈ l.
Proof.
  intros [k Hk]%list_elem_of_lookup.
  apply list_lookup_insert_Some in Hk as [(_ & -> & _)|[_ Hk]]; [by left|].
  right. by eapply list_elem_of_lookup_2.
Qed.

Lemma elem_of_insert_keep {A} (l : list A) i x y z :
  l !! i = Some z → y ∈ l → y ≠ z → y ∈ <[i := x]> l.
Proof.
  intros Hi [k Hk]%list_elem_of_lookup Hne.
  apply list_elem_of_lookup. exists k.
  rewrite list_lookup_insert_ne; [done|]. intros ->. congruence.
Qed.

Lemma count_zero {A} (P : A → Prop) `{∀ x, Decision (P x)} rows :
  (∀ x, x ∈ rows → ¬ P x) → count P rows = 0.
Proof.
  induction rows as [|x rows IH]; intros Hall; [done|].
  rewrite count_cons, IH.
  - rewrite decide_False; [done|]. apply Hall. left.
  - intros y Hy. apply Hall. by right.
Qed.

(** What the bulk update of [_assignWaitingUserToTicket] does to a row. *)
Lemma assigned_entries_lookup e u rows k w' :
  assigned_entries e u rows !! k = Some w' →
  ∃ w, rows !! k = Some w
       ∧ WaitingList.eventId w' = WaitingList.eventId w
       ∧ WaitingList.userId w' = WaitingList.userId w
       ∧ WaitingList.position w' = WaitingList.position w
       ∧ (WaitingList.status w' = WaitingList.waiting →
          w' = w ∧ ¬ entry_of e u w).
Proof.
  unfold assigned_entries. rewrite list_lookup_fmap.
  destruct (rows !! k) as [w|]; [|done]. intros [= <-]. exists w.
  destruct (decide (entry_of e u w)); by split_and!.
Qed.

Lemma assigned_entries_length e u rows :
  length (assigned_entries e u rows) = length rows.
Proof. apply length_fmap. Qed.

(** ** Every call preserves consistency *)

Lemma consistent_empty : consistent emptyStore.
Proof.
  split; simpl.
  - intros b Hb. by apply elem_of_nil in Hb.
  - intros e ev Hev. by rewrite lookup_empty in Hev.
  - intros w Hw. by apply elem_of_nil in Hw.
  - intros i j wi wj Hi. by rewrite lookup_nil in Hi.
Qed.

Lemma consistent_initializeEvent id name n s :
  consistent s → consistent (fst (initializeEvent id name n s)).
Proof.
  intros Hc.
  destruct (initializeEvent_store id name n s) as [-> | (Hid & Hn & ->)];
    [done|]. cbn [fst].
  destruct Hc as [Href Htk Hqb Hqo].
  split; cbn [events bookings waitingLists]; [| |done..].
  - intros b Hb. destruct (decide (id = Booking.eventId b)) as [->|Hne].
    + rewrite lookup_insert_eq. by eexists.
    + rewrite lookup_insert_ne by done. by apply Href.
  - intros e ev Hev. destruct (decide (id = e)) as [->|Hne].
    + rewrite lookup_insert_eq in Hev. simplify_eq. cbn.
      rewrite count_zero; [lia|].
      intros b Hb [Hbe _]. destruct (Href b Hb) as [ev Hev]. congruence.
    + rewrite lookup_insert_ne in Hev by done. by apply Htk.
Qed.

Lemma consistent_bookTicket e u s :
  consistent s → consistent (fst (bookTicket e u s)).
Proof.
  intros Hc.
  destruct (bookTicket_store e u s)
    as [->|[(ev & Hev & Hpos & [-> | ->])|(ev & Hev & Hpos & Hst)]]; [done| | |].
  - (* a ticket is sold *)
    destruct Hc as [Href Htk Hqb Hqo].
    split; cbn [events bookings waitingLists]; [| | |done].
    + intros b [Hb| ->%list_elem_of_singleton]%elem_of_app;
        apply lookup_alter_is_Some; [by apply Href | by eexists].
    + intros e' ev' Hev'. rewrite count_snoc.
      destruct (decide (e = e')) as [<-|Hne].
      * rewrite lookup_alter_eq, Hev in Hev'. cbn in Hev'. simplify_eq. cbn.
        rewrite decide_True by done. specialize (Htk _ _ Hev). lia.
      * rewrite lookup_alter_ne in Hev' by done.
        rewrite decide_False by (by intros [? _]).
        specialize (Htk _ _ Hev'). lia.
    + intros w Hw Hws. destruct (Hqb w Hw Hws) as (b & Hb & Hbw).
      exists b. split; [|done]. apply elem_of_app. by left.
  - (* a ticket is taken and the booking refused *)
    destruct Hc as [Href Htk Hqb Hqo].
    split; cbn [events bookings waitingLists]; [| |done..].
    + intros b Hb. apply lookup_alter_is_Some. by apply Href.
    + intros e' ev' Hev'.
      destruct (decide (e = e')) as [<-|Hne].
      * rewrite lookup_alter_eq, Hev in Hev'. cbn in Hev'. simplify_eq. cbn.
        specialize (Htk _ _ Hev). lia.
      * rewrite lookup_alter_ne in Hev' by done. by apply Htk.
  - (* the requester is put on the waiting list *)
    destruct Hc as [Href Htk Hqb Hqo].
    assert (Htk' : ∀ e' ev', events s !! e' = Some ev' →
              0 ≤ Event.availableTickets ev'
              ∧ Event.availableTickets ev'
                + count (booking_in e' Booking.confirmed)
                    (bookings s
                     ++ [Booking.mk e u Booking.waiting
                           (Some (nextPosition e (waitingLists s)))])
                ≤ Event.totalTickets ev').
    { intros e' ev' Hev'. rewrite count_snoc.
      rewrite decide_False by (by intros [_ ?]).
      specialize (Htk _ _ Hev'). lia. }
    assert (Href' : ∀ b, b ∈ bookings s
                           ++ [Booking.mk e u Booking.waiting
                                 (Some (nextPosition e (waitingLists s)))] →
                         is_Some (events s !! Booking.eventId b)).
    { intros b [Hb| ->%list_elem_of_singleton]%elem_of_app;
        [by apply Href | by eexists]. }
    destruct Hst as [-> | ->];
      split; cbn [events bookings waitingLists]; try done.
    + intros w Hw Hws. destruct (Hqb w Hw Hws) as (b & Hb & Hbw).
      exists b. split; [|done]. apply elem_of_app. by left.
    + intros w [Hw| ->%list_elem_of_singleton]%elem_of_app Hws.
      * destruct (Hqb w Hw Hws) as (b & Hb & Hbw).
        exists b. split; [|done]. apply elem_of_app. by left.
      * eexists. split; [apply elem_of_app; right; by apply list_elem_of_singleton|].
        done.
    + intros i j wi wj Hi Hj Hlt Hsame Hws.
      apply lookup_app_Some in Hj as [Hj|[Hlen Hj]].
      * rewrite lookup_app_l in Hi by (apply lookup_lt_Some in Hj; lia).
        by eapply Hqo.
      * apply list_lookup_singleton_Some in Hj as [Hz <-].
        rewrite lookup_app_l in Hi by lia. cbn in *.
        apply nextPosition_above; [by eapply list_elem_of_lookup_2 | done].
Qed.

Lemma count_confirmed_cancel e rows i b :
  rows !! i = Some b → Booking.status b = Booking.confirmed →
  count (booking_in e Booking.confirmed)
    (<[i := Booking.set_status Booking.cancelled b]> rows)
  = count (booking_in e Booking.confirmed) rows
    - (if decide (Booking.eventId b = e) then 1 else 0).
Proof.
  intros Hi Hst. rewrite (count_insert _ _ _ b) by done.
  rewrite (decide_False (P := booking_in e _ (Booking.set_status _ _)))
    by (by intros [_ ?]).
  destruct (decide (Booking.eventId b = e)) as [Hbe|Hbe].
  - rewrite decide_True by done. lia.
  - rewrite decide_False by (by intros [? _]). lia.
Qed.

Lemma count_confirmed_promote e rows j b :
  rows !! j = Some b → Booking.status b = Booking.waiting →
  count (booking_in e Booking.confirmed)
    (<[j := Booking.set_status Booking.confirmed b]> rows)
  = count (booking_in e Booking.confirmed) rows
    + (if decide (Booking.eventId b = e) then 1 else 0).
Proof.
  intros Hj Hst. rewrite (count_insert _ _ _ b) by done.
  rewrite (decide_False (P := booking_in e _ b))
    by (intros [_ ?]; congruence).
  destruct (decide (Booking.eventId b = e)) as [Hbe|Hbe].
  - rewrite decide_True by done. lia.
  - rewrite decide_False by (by intros [? _]). lia.
Qed.

Lemma waiting_survives_cancel (rows : list Booking.t) i b x :
  rows !! i = Some b → Booking.status b = Booking.confirmed →
  x ∈ rows → Booking.status x = Booking.waiting →
  x ∈ <[i := Booking.set_status Booking.cancelled b]> rows.
Proof.
  intros Hi Hb Hx Hxs. eapply elem_of_insert_keep; [done..|]. congruence.
Qed.

Lemma waiting_survives_promote (rows : list Booking.t) j b x :
  rows !! j = Some b → x ∈ rows →
  ¬ booking_of (Booking.eventId b) (Booking.userId b) x →
  x ∈ <[j := Booking.set_status Booking.confirmed b]> rows.
Proof.
  intros Hj Hx Hne. eapply elem_of_insert_keep; [done..|].
  intros ->. by apply Hne.
Qed.

(** The bulk update keeps the queue ordered and never revives an entry. *)
Lemma queue_ordered_assigned e u (rows : list WaitingList.t) :
  (∀ i j wi wj, rows !! i = Some wi → rows !! j = Some wj → (i < j)%nat →
     WaitingList.eventId wi = WaitingList.eventId wj →
     WaitingList.status wi = WaitingList.waiting →
     WaitingList.position wi < WaitingList.position wj) →
  ∀ i j wi wj,
    assigned_entries e u rows !! i = Some wi →
    assigned_entries e u rows !! j = Some wj → (i < j)%nat →
    WaitingList.eventId wi = WaitingList.eventId wj →
    WaitingList.status wi = WaitingList.waiting →
    WaitingList.position wi < WaitingList.position wj.
Proof.
  intros Hqo i j wi wj Hi Hj Hlt Hsame Hws.
  apply assigned_entries_lookup in Hi as (wi0 & Hi & Hie & _ & Hip & Hiw).
  apply assigned_entries_lookup in Hj as (wj0 & Hj & Hje & _ & Hjp & _).
  destruct (Hiw Hws) as [-> _]. rewrite Hjp.
  eapply Hqo; [done..| congruence | done].
Qed.

Lemma consistent_cancelBooking e u s :
  consistent s → consistent (fst (cancelBooking e u s)).
Proof.
  intros Hc.
  destruct (cancelBooking_store e u s) as [->|(i & b & Hi & Hb & Hcase)]; [done|].
  destruct Hc as [Href Htk Hqb Hqo].
  destruct Hb as (Hbe & Hbu & Hbs).
  assert (Hbin : b ∈ bookings s) by by eapply list_elem_of_lookup_2.
  assert (Href' : ∀ x, x ∈ <[i := Booking.set_status Booking.cancelled b]> (bookings s) →
                       is_Some (events s !! Booking.eventId x)).
  { intros x [->|Hx]%elem_of_insert_inv; [cbn|]; by apply Href. }
  assert (Htk' : ∀ e' ev', events s !! e' = Some ev' →
            0 ≤ Event.availableTickets ev'
            ∧ Event.availableTickets ev'
              + (count (booking_in e' Booking.confirmed)
                   (<[i := Booking.set_status Booking.cancelled b]> (bookings s))
                 + (if decide (e = e') then 1 else 0))
              ≤ Event.totalTickets ev').
  { intros e' ev' Hev'. rewrite count_confirmed_cancel by done.
    rewrite Hbe. specialize (Htk _ _ Hev'). lia. }
  destruct Hcase as [(Hev & ->) | [(Hev & Hq & ->) | (w & Hev & Hq & Hcase)]].
  - destruct (Href b Hbin) as [ev Hev']. congruence.
  - (* nobody is waiting: the ticket becomes available *)
    split; cbn [events bookings waitingLists]; [| | |done].
    + intros x Hx. apply lookup_alter_is_Some. by apply Href'.
    + intros e' ev' Hev'. destruct (decide (e = e')) as [<-|Hne].
      * rewrite lookup_alter_eq in Hev'. destruct Hev as [ev Hev].
        rewrite Hev in Hev'. cbn in Hev'. simplify_eq. cbn.
        specialize (Htk' _ _ Hev). rewrite decide_True in Htk' by done.
        specialize (Htk _ _ Hev). lia.
      * rewrite lookup_alter_ne in Hev' by done.
        specialize (Htk' _ _ Hev'). rewrite decide_False in Htk' by done. lia.
    + intros w Hw Hws. destruct (Hqb w Hw Hws) as (x & Hx & Hxw).
      exists x. split; [|done].
      eapply waiting_survives_cancel; [done..|]. by destruct Hxw as (_ & _ & ?).
  - (* the earliest waiting entry is consumed *)
    assert (Hqb' : ∀ w', w' ∈ assigned_entries e (WaitingList.userId w) (waitingLists s) →
              WaitingList.status w' = WaitingList.waiting →
              ∃ x, x ∈ <[i := Booking.set_status Booking.cancelled b]> (bookings s)
                   ∧ booking_with (WaitingList.eventId w') (WaitingList.userId w')
                       Booking.waiting x
                   ∧ ¬ entry_of e (WaitingList.userId w) w').
    { intros w' [k Hk]%list_elem_of_lookup Hws.
      apply assigned_entries_lookup in Hk as (w0 & Hk & _ & _ & _ & Hw0).
      destruct (Hw0 Hws) as [-> Hnot].
      destruct (Hqb w0) as (x & Hx & Hxw);
        [by eapply list_elem_of_lookup_2 | done |].
      exists x. split_and!; [|done..].
      eapply waiting_survives_cancel; [done..|]. by destruct Hxw as (_ & _ & ?). }
    destruct Hcase as [(Hnf & ->) | (j & b' & Hji & Hfj & ->)].
    + split; cbn [events bookings waitingLists];
        [done | | | by apply queue_ordered_assigned].
      * intros e' ev' Hev'. specialize (Htk' _ _ Hev').
        destruct (decide (e = e')); lia.
      * intros w' Hw' Hws. destruct (Hqb' w' Hw' Hws) as (x & ? & ? & _). eauto.
    + apply list_find_Some in Hfj as (Hj & (Hje & Hju & Hjs) & _).
      assert (Hj' : <[i := Booking.set_status Booking.cancelled b]> (bookings s) !! j
                    = Some b') by by rewrite list_lookup_insert_ne.
      split; cbn [events bookings waitingLists];
        [ | | | by apply queue_ordered_assigned].
      * intros x [->|Hx]%elem_of_insert_inv; [|by apply Href'].
        cbn. apply Href. by eapply list_elem_of_lookup_2.
      * intros e' ev' Hev'. specialize (Htk' _ _ Hev').
        rewrite count_confirmed_promote by done. rewrite Hje.
        destruct (decide (e = e')); lia.
      * intros w' Hw' Hws. destruct (Hqb' w' Hw' Hws) as (x & Hx & Hxw & Hnot).
        exists x. split; [|done].
        eapply waiting_survives_promote; [done..|].
        rewrite Hje, Hju. intros [Hxe Hxu]. apply Hnot.
        destruct Hxw as (Hwe & Hwu & _). split; congruence.
Qed.

Theorem consistent_handle s r : consistent s → consistent (handle s r).
Proof.
  intros Hc. destruct r as [id name n|e u|e u|e]; simpl.
  - by apply consistent_initializeEvent.
  - by apply consistent_bookTicket.
  - by apply consistent_cancelBooking.
  - by rewrite getEventStatus_store.
Qed.

Theorem reachable_consistent s : reachable s → consistent s.
Proof.
  induction 1 as [|s r _ IH]; [apply consistent_empty | by apply consistent_handle].
Qed.


(** ** Tickets are never oversold *)

(** C6.  In every reachable store and for every event, the confirmed bookings
    of the event do not outnumber [totalTickets], and [availableTickets] lies
    between 0 and [totalTickets]. *)
Theorem tickets_never_oversold s e ev :
  reachable s → events s !! e = Some ev →
  Z.of_nat (length (filter (λ b, Booking.eventId b = e
                                 ∧ Booking.status b = Booking.confirmed)
                      (bookings s)))
  ≤ Event.totalTickets ev
  ∧ 0 ≤ Event.availableTickets ev ≤ Event.totalTickets ev.
Proof.
  intros Hs Hev.
  destruct (tickets_accounted s (reachable_consistent s Hs) e ev Hev) as [H0 Hle].
  pose proof (count_nonneg (booking_in e Booking.confirmed) (bookings s)) as Hc.
  unfold count in *. unfold booking_in in *. lia.
Qed.

Lemma tickets_never_oversold_witness :
  Z.of_nat (length (filter (λ b, Booking.eventId b = "e"
                                 ∧ Booking.status b = Booking.confirmed)
                      (bookings (exec (scenario1 ++ [BookTicket "e" "u3"]) emptyStore))))
  ≤ 2
  ∧ 0 ≤ 0 ≤ 2.
Proof.
  apply (tickets_never_oversold
           (exec (scenario1 ++ [BookTicket "e" "u3"]) emptyStore) "e"
           (Event.mk "Concert" 2 0)).
  - apply reachable_exec. constructor.
  - reflexivity.
Defined.

(** ** A successful cancellation *)

(** C3.  A [cancelBooking] that returns, in a reachable store, has turned the
    requester's confirmed booking into a cancelled one, which it returns as
    [cancelledBooking].  Either it returns an assigned booking, which is a
    booking of the event that was waiting and is now confirmed, and
    [availableTickets] is what it was before the call; or it returns null for
    the assigned booking, no entry of the event was waiting, and
    [availableTickets] has grown by one. *)
Theorem cancelBooking_success s e u cb ab :
  reachable s →
  snd (cancelBooking e u s) = inr (cb, ab) →
  ∃ i b ev,
    bookings s !! i = Some b
    ∧ booking_with e u Booking.confirmed b
    ∧ cb = Booking.set_status Booking.cancelled b
    ∧ bookings (fst (cancelBooking e u s)) !! i = Some cb
    ∧ events s !! e = Some ev
    ∧ match ab with
      | Some p =>
          (∃ j b', bookings s !! j = Some b'
                   ∧ Booking.eventId b' = e
                   ∧ Booking.status b' = Booking.waiting
                   ∧ p = Booking.set_status Booking.confirmed b'
                   ∧ bookings (fst (cancelBooking e u s)) !! j = Some p)
          ∧ (∃ w, w ∈ waitingLists s ∧ queued_in e w
                  ∧ WaitingList.userId w = Booking.userId p)
          ∧ events (fst (cancelBooking e u s)) !! e = Some ev
      | None =>
          (∀ w, w ∈ waitingLists s → ¬ queued_in e w)
          ∧ Event.availableTickets <$> events (fst (cancelBooking e u s)) !! e
            = Some (Event.availableTickets ev + 1)
      end.
Proof.
  intros Hs Hrun. apply reachable_consistent in Hs.
  destruct (falsy e || falsy u) eqn:Hv.
  { by rewrite cancelBooking_invalid in Hrun. }
  apply orb_false_elim in Hv as [He Hu].
  destruct (list_find (booking_with e u Booking.confirmed) (bookings s))
    as [[i b]|] eqn:Hf; [|by rewrite cancelBooking_not_found in Hrun].
  pose proof Hf as (Hi & Hb & _)%list_find_Some.
  assert (Hlt : (i < length (bookings s))%nat) by by eapply lookup_lt_Some.
  destruct (events s !! e) as [ev|] eqn:Hev;
    [|by erewrite cancelBooking_no_event in Hrun].
  exists i, b, ev.
  destruct (first_ordered Z.ltb (queued_in e) (waitingLists s)) as [w|] eqn:Hq.
  - erewrite cancelBooking_queue in Hrun |- * by done.
    destruct (list_find (booking_with e (WaitingList.userId w) Booking.waiting)
                (<[i := _]> (bookings s))) as [[j b']|] eqn:Hw.
    + cbn in Hrun. simplify_eq. cbn [fst events bookings].
      apply find_waiting_after_cancel in Hw as (Hji & Hj & (Hje & Hju & Hjs) & _);
        [|done|by destruct Hb as (_ & _ & ?)].
      assert (Hjlt : (j < length (bookings s))%nat) by by eapply lookup_lt_Some.
      do 3 (split; [done|]). split; [|split; [done|]].
      * rewrite list_lookup_insert_ne by done. by apply list_lookup_insert_eq.
      * rewrite alter_add_restore.
        apply first_ordered_Some in Hq as [Hwin Hwq].
        split; [|split; [by exists w | done]].
        exists j, b'. do 4 (split; [done|]).
        apply list_lookup_insert_eq. by rewrite length_insert.
    + exfalso. apply first_ordered_Some in Hq as [Hwin [Hwe Hws]].
      destruct (queued_have_booking s Hs w Hwin Hws) as (x & Hx & Hxw).
      rewrite Hwe in Hxw.
      eapply find_waiting_after_cancel_None; [done | | done | done | | done].
      * by destruct Hb as (_ & _ & ?).
      * destruct Hxw as (_ & _ & ->). done.
  - erewrite cancelBooking_no_queue in Hrun |- * by done.
    cbn in Hrun. simplify_eq. cbn [fst events bookings].
    do 3 (split; [done|]). split; [|split; [done|]].
    + by apply list_lookup_insert_eq.
    + split; [exact (proj1 (first_ordered_None _ _ _) Hq)|].
      by rewrite lookup_alter_eq, Hev.
Qed.

Lemma cancelBooking_success_witness :
  ∃ i b ev,
    bookings (exec (scenario1 ++ [BookTicket "e" "u3"]) emptyStore) !! i = Some b
    ∧ booking_with "e" "u1" Booking.confirmed b
    ∧ Booking.mk "e" "u1" Booking.cancelled None
      = Booking.set_status Booking.cancelled b
    ∧ bookings (fst (cancelBooking "e" "u1"
                       (exec (scenario1 ++ [BookTicket "e" "u3"]) emptyStore))) !! i
      = Some (Booking.mk "e" "u1" Booking.cancelled None)
    ∧ events (exec (scenario1 ++ [BookTicket "e" "u3"]) emptyStore) !! "e" = Some ev
    ∧ (∃ j b',
         bookings (exec (scenario1 ++ [BookTicket "e" "u3"]) emptyStore) !! j = Some b'
         ∧ Booking.eventId b' = "e"
         ∧ Booking.status b' = Booking.waiting
         ∧ Booking.mk "e" "u3" Booking.confirmed (Some 1)
           = Booking.set_status Booking.confirmed b'
         ∧ bookings (fst (cancelBooking "e" "u1"
                            (exec (scenario1 ++ [BookTicket "e" "u3"]) emptyStore))) !! j
           = Some (Booking.mk "e" "u3" Booking.confirmed (Some 1)))
      ∧ (∃ w, w ∈ waitingLists (exec (scenario1 ++ [BookTicket "e" "u3"]) emptyStore)
              ∧ queued_in "e" w
              ∧ WaitingList.userId w = "u3")
      ∧ events (fst (cancelBooking "e" "u1"
                       (exec (scenario1 ++ [BookTicket "e" "u3"]) emptyStore))) !! "e"
        = Some ev.
Proof.
  apply (cancelBooking_success
           (exec (scenario1 ++ [BookTicket "e" "u3"]) emptyStore) "e" "u1"
           (Booking.mk "e" "u1" Booking.cancelled None)
           (Some (Booking.mk "e" "u3" Booking.confirmed (Some 1)))).
  - apply reachable_exec. constructor.
  - vm_compute. reflexivity.
Defined.


(** ** The waiting list along an execution *)

(** What a call does to [waiting_lists]: nothing, one new waiting entry at
    the end, or the bulk update of a promotion. *)
Lemma handle_waitingLists s r :
  waitingLists (handle s r) = waitingLists s
  ∨ (∃ e u, r = BookTicket e u
            ∧ waitingLists (handle s r)
              = waitingLists s
                ++ [WaitingList.mk e u (nextPosition e (waitingLists s))
                      WaitingList.waiting])
  ∨ (∃ e c w, r = CancelBooking e c
              ∧ first_ordered Z.ltb (queued_in e) (waitingLists s) = Some w
              ∧ waitingLists (handle s r)
                = assigned_entries e (WaitingList.userId w) (waitingLists s)
              ∧ (consistent s → promoted_by s r e (WaitingList.userId w))).
Proof.
  destruct r as [id name n|e u|e c|e]; cbn [handle].
  - left. by destruct (initializeEvent_store id name n s) as [-> | (_ & _ & ->)].
  - destruct (bookTicket_store e u s)
      as [->|[(ev & _ & _ & [->| ->])|(ev & _ & _ & [->| ->])]];
      [by left | by left | by left | by left |].
    right; left. by exists e, u.
  - destruct (falsy e || falsy c) eqn:Hv.
    { left. by rewrite cancelBooking_invalid. }
    apply orb_false_elim in Hv as [He Hc].
    destruct (list_find (booking_with e c Booking.confirmed) (bookings s))
      as [[i b]|] eqn:Hf; [|left; by rewrite cancelBooking_not_found].
    pose proof Hf as (Hi & (_ & _ & Hbs) & _)%list_find_Some.
    destruct (events s !! e) as [ev|] eqn:Hev;
      [|left; by erewrite cancelBooking_no_event].
    destruct (first_ordered Z.ltb (queued_in e) (waitingLists s)) as [w|] eqn:Hq;
      [|left; by erewrite cancelBooking_no_queue].
    right; right. exists e, c, w. split_and!; [done..| |].
    + erewrite cancelBooking_queue by done.
      by destruct (list_find (booking_with _ _ Booking.waiting) _) as [[??]|].
    + intros Hs. exists c. erewrite cancelBooking_queue by done.
      destruct (list_find (booking_with e (WaitingList.userId w) Booking.waiting)
                  (<[i := _]> (bookings s))) as [[j b']|] eqn:Hw.
      * apply find_waiting_after_cancel in Hw as (_ & _ & (_ & Hju & _) & _);
          [|done..].
        by eexists _, _.
      * exfalso. apply first_ordered_Some in Hq as [Hwin [Hwe Hws]].
        destruct (queued_have_booking s Hs w Hwin Hws) as (x & Hx & Hxw).
        rewrite Hwe in Hxw.
        eapply find_waiting_after_cancel_None; [done..| |done].
        destruct Hxw as (_ & _ & ->). done.
  - left. by rewrite getEventStatus_store.
Qed.

(** A waiting [bookTicket] appends the requester's entry. *)
Lemma enqueued_by_entry s e u :
  enqueued_by s e u →
  waitingLists (handle s (BookTicket e u))
  = waitingLists s
    ++ [WaitingList.mk e u (nextPosition e (waitingLists s)) WaitingList.waiting].
Proof.
  intros (b & Hb & Hst). cbn [handle].
  destruct (falsy e || falsy u) eqn:Hv.
  { by rewrite bookTicket_invalid in Hb. }
  apply orb_false_elim in Hv as [He Hu].
  destruct (is_active (list_find (booking_of e u) (bookings s))) eqn:Ha.
  { by rewrite bookTicket_duplicate in Hb. }
  destruct (events s !! e) as [ev|] eqn:Hev;
    [|by rewrite bookTicket_no_event in Hb].
  destruct (refused u) as [err|] eqn:Hr.
  { destruct (Z.lt_ge_cases 0 (Event.availableTickets ev));
      [erewrite bookTicket_available_refused in Hb by done
      |erewrite bookTicket_sold_out_refused in Hb by done]; by simplify_eq. }
  destruct (Z.lt_ge_cases 0 (Event.availableTickets ev)).
  - erewrite bookTicket_available in Hb by done. cbn in Hb. by simplify_eq.
  - erewrite bookTicket_sold_out in Hb |- * by done.
    by destruct (list_find (same_slot _) _).
Qed.

Lemma row_evolves_refl w : row_evolves w w.
Proof. by repeat split. Qed.

Lemma row_evolves_trans w1 w2 w3 :
  row_evolves w1 w2 → row_evolves w2 w3 → row_evolves w1 w3.
Proof.
  intros (He1 & Hu1 & Hp1 & Hs1) (He2 & Hu2 & Hp2 & Hs2).
  split_and!; [congruence..|].
  intros Hw. pose proof (Hs2 Hw) as ->. by apply Hs1.
Qed.

Lemma handle_row s r k w :
  waitingLists s !! k = Some w →
  ∃ w', waitingLists (handle s r) !! k = Some w' ∧ row_evolves w w'.
Proof.
  intros Hk.
  destruct (handle_waitingLists s r)
    as [->|[(e & u & _ & ->)|(e & c & w0 & _ & _ & -> & _)]].
  - exists w. split; [done | apply row_evolves_refl].
  - exists w. split; [|apply row_evolves_refl].
    by apply lookup_app_l_Some.
  - unfold assigned_entries. rewrite list_lookup_fmap, Hk. cbn.
    eexists. split; [done|].
    destruct (decide (entry_of e (WaitingList.userId w0) w));
      [by repeat split | apply row_evolves_refl].
Qed.

Lemma exec_row rs s k w :
  waitingLists s !! k = Some w →
  ∃ w', waitingLists (exec rs s) !! k = Some w' ∧ row_evolves w w'.
Proof.
  revert s w. induction rs as [|r rs IH]; intros s w Hk.
  - exists w. split; [done | apply row_evolves_refl].
  - destruct (handle_row s r k w Hk) as (w1 & Hk1 & Hev1).
    destruct (IH _ _ Hk1) as (w2 & Hk2 & Hev2).
    exists w2. split; [done | by eapply row_evolves_trans].
Qed.

Lemma exec_waitingLists_length rs s :
  (length (waitingLists s) ≤ length (waitingLists (exec rs s)))%nat.
Proof.
  revert s. induction rs as [|r rs IH]; intros s; [done|].
  etrans; [|apply IH].
  destruct (handle_waitingLists s r)
    as [->|[(e & u & _ & ->)|(e & c & w0 & _ & _ & -> & _)]].
  - done.
  - rewrite length_app. lia.
  - by rewrite assigned_entries_length.
Qed.

(** The call at which a row leaves the waiting state is the promotion of
    its requester. *)
Lemma handle_row_assigned s r k w w' :
  consistent s →
  waitingLists s !! k = Some w → WaitingList.status w = WaitingList.waiting →
  waitingLists (handle s r) !! k = Some w' →
  WaitingList.status w' = WaitingList.assigned →
  promoted_by s r (WaitingList.eventId w) (WaitingList.userId w).
Proof.
  intros Hs Hk Hw Hk' Hw'.
  destruct (handle_waitingLists s r)
    as [Heq|[(e & u & _ & Heq)|(e & c & w0 & _ & _ & Heq & Hprom)]];
    rewrite Heq in Hk'.
  - congruence.
  - rewrite lookup_app_l in Hk' by by eapply lookup_lt_Some. congruence.
  - unfold assigned_entries in Hk'. rewrite list_lookup_fmap, Hk in Hk'.
    cbn in Hk'. destruct (decide (entry_of e (WaitingList.userId w0) w))
      as [[-> ->]|]; [by apply Hprom | congruence].
Qed.

Lemma exec_row_assigned rs s k w w' :
  reachable s →
  waitingLists s !! k = Some w → WaitingList.status w = WaitingList.waiting →
  waitingLists (exec rs s) !! k = Some w' →
  WaitingList.status w' = WaitingList.assigned →
  ∃ rs1 r rs2,
    rs = rs1 ++ r :: rs2
    ∧ promoted_by (exec rs1 s) r (WaitingList.eventId w) (WaitingList.userId w).
Proof.
  revert s w. induction rs as [|r rs IH]; intros s w Hs Hk Hw Hk' Hw'.
  { cbn in Hk'. congruence. }
  destruct (handle_row s r k w Hk) as (w1 & Hk1 & (He1 & Hu1 & _ & Hs1)).
  destruct (WaitingList.status w1) eqn:Hst1.
  - pose proof (Hs1 eq_refl) as ->.
    destruct (IH (handle s r) w (reachable_handle _ _ Hs) Hk1 Hw Hk' Hw')
      as (rs1 & r' & rs2 & -> & Hprom).
    by exists (r :: rs1), r', rs2.
  - exists [], r, rs. split; [done|]. cbn.
    eapply handle_row_assigned; [by apply reachable_consistent | done..].
Qed.

(** ** Promotion in arrival order *)

(** The promotion made by a [cancelBooking] takes the waiting entry of least
    position. *)
Lemma promotion_selects_least s e c cb p :
  snd (cancelBooking e c s) = inr (cb, Some p) →
  ∃ w, w ∈ waitingLists s ∧ queued_in e w
       ∧ (∀ w', w' ∈ waitingLists s → queued_in e w' →
                WaitingList.position w ≤ WaitingList.position w')
       ∧ Booking.eventId p = e
       ∧ Booking.userId p = WaitingList.userId w
       ∧ Booking.status p = Booking.confirmed
       ∧ WaitingList.set_status WaitingList.assigned w
         ∈ waitingLists (fst (cancelBooking e c s)).
Proof.
  intros Hrun.
  destruct (falsy e || falsy c) eqn:Hv.
  { by rewrite cancelBooking_invalid in Hrun. }
  apply orb_false_elim in Hv as [He Hc].
  destruct (list_find (booking_with e c Booking.confirmed) (bookings s))
    as [[i b]|] eqn:Hf; [|by rewrite cancelBooking_not_found in Hrun].
  pose proof Hf as (Hi & (_ & _ & Hbs) & _)%list_find_Some.
  destruct (events s !! e) as [ev|] eqn:Hev;
    [|by erewrite cancelBooking_no_event in Hrun].
  destruct (first_ordered Z.ltb (queued_in e) (waitingLists s)) as [w|] eqn:Hq;
    [|by erewrite cancelBooking_no_queue in Hrun].
  erewrite cancelBooking_queue in Hrun |- * by done.
  destruct (list_find (booking_with e (WaitingList.userId w) Booking.waiting)
              (<[i := _]> (bookings s))) as [[j b']|] eqn:Hw;
    [|by cbn in Hrun].
  cbn in Hrun. simplify_eq. cbn [fst waitingLists].
  apply find_waiting_after_cancel in Hw as (_ & _ & (Hje & Hju & _) & _); [|done..].
  pose proof (first_ordered_asc_least _ _ _ Hq) as Hleast.
  apply first_ordered_Some in Hq as [Hwin Hwq].
  exists w. split_and!; [done..|].
  unfold assigned_entries. apply list_elem_of_fmap. exists w.
  split; [|done]. rewrite decide_True; [done|]. by destruct Hwq.
Qed.

(** C5.  Promotion is first in, first out.  Every promotion made by
    [cancelBooking] takes the entry of least position among those still
    waiting for the event, and marks it assigned.  Consequently, in every
    execution from the empty database: when requester A obtains a waiting
    booking for an event, requester B, not on the event's waiting list at that
    time, obtains one later, and a later call promotes B, then a call in
    between has promoted A. *)
Theorem promotion_is_fifo :
  (∀ s e c cb p,
     snd (cancelBooking e c s) = inr (cb, Some p) →
     ∃ w, w ∈ waitingLists s ∧ queued_in e w
          ∧ (∀ w', w' ∈ waitingLists s → queued_in e w' →
                   WaitingList.position w ≤ WaitingList.position w')
          ∧ Booking.eventId p = e
          ∧ Booking.userId p = WaitingList.userId w
          ∧ Booking.status p = Booking.confirmed
          ∧ WaitingList.set_status WaitingList.assigned w
            ∈ waitingLists (fst (cancelBooking e c s)))
  ∧ (∀ pre mid post e A B r,
       enqueued_by (exec pre emptyStore) e A →
       (∀ w, w ∈ waitingLists (exec (pre ++ BookTicket e A :: mid) emptyStore) →
             queued_in e w → WaitingList.userId w ≠ B) →
       enqueued_by (exec (pre ++ BookTicket e A :: mid) emptyStore) e B →
       promoted_by
         (exec (pre ++ BookTicket e A :: mid ++ BookTicket e B :: post) emptyStore)
         r e B →
       ∃ rs1 rA rs2,
         mid ++ BookTicket e B :: post = rs1 ++ rA :: rs2
         ∧ promoted_by (exec (pre ++ BookTicket e A :: rs1) emptyStore) rA e A).
Proof.
  split; [apply promotion_selects_least|].
  intros pre mid post e A B r HA HnB HB (c & cb & p & -> & Hrun & Hp).
  set (sA := exec pre emptyStore) in *.
  set (sA' := handle sA (BookTicket e A)).
  assert (HsA' : reachable sA')
    by (apply reachable_handle, reachable_exec; constructor).
  assert (Hexec : ∀ rs, exec (pre ++ BookTicket e A :: rs) emptyStore = exec rs sA').
  { intros rs. by rewrite exec_app. }
  rewrite Hexec in HnB, HB, Hrun.
  setoid_rewrite Hexec.
  set (sB := exec mid sA') in *.
  set (rs := mid ++ BookTicket e B :: post) in *.
  set (sC := exec rs sA') in *.
  assert (HsC : sC = exec (BookTicket e B :: post) sB)
    by (unfold sC, rs, sB; apply exec_app).
  (* the entry of A *)
  set (k := length (waitingLists sA)).
  set (wA := WaitingList.mk e A (nextPosition e (waitingLists sA)) WaitingList.waiting).
  assert (Hk : waitingLists sA' !! k = Some wA).
  { unfold sA'. rewrite (enqueued_by_entry _ _ _ HA).
    by rewrite lookup_app_r, Nat.sub_diag. }
  destruct (exec_row rs sA' k wA Hk) as (wA' & HkC & HAev).
  (* the entry through which B is promoted *)
  destruct (promotion_selects_least _ _ _ _ _ Hrun)
    as (w & [m Hm]%list_elem_of_lookup & Hwq & Hleast & _ & Hpu & _).
  assert (Hkm : (k < m)%nat).
  { assert (Hlen : (S k ≤ length (waitingLists sB))%nat).
    { etrans; [|apply exec_waitingLists_length].
      apply lookup_lt_Some in Hk. lia. }
    destruct (decide (m < length (waitingLists sB))%nat) as [Hlt|]; [|lia].
    exfalso. apply lookup_lt_is_Some in Hlt as [w0 Hw0].
    destruct (exec_row (BookTicket e B :: post) sB m w0 Hw0)
      as (w' & Hw' & (_ & _ & _ & Hsame)).
    rewrite <- HsC, Hm in Hw'. simplify_eq.
    pose proof (Hsame (proj2 Hwq)) as ->.
    apply (HnB w0); [by eapply list_elem_of_lookup_2 | done | congruence]. }
  (* A's entry is no longer waiting when B is promoted *)
  destruct (WaitingList.status wA') eqn:HstA.
  { exfalso. destruct HAev as (_ & _ & _ & Hsame). pose proof (Hsame HstA) as ->.
    pose proof (reachable_consistent sC (reachable_exec rs sA' HsA')) as HcC.
    pose proof (queue_ordered sC HcC k m wA w HkC Hm Hkm) as Hord.
    specialize (Hleast wA). 
    assert (WaitingList.position w ≤ WaitingList.position wA).
    { apply Hleast; [by eapply list_elem_of_lookup_2 | done]. }
    assert (WaitingList.position wA < WaitingList.position w).
    { apply Hord; [|done]. cbn. by destruct Hwq as [-> _]. }
    lia. }
  destruct (exec_row_assigned rs sA' k wA wA' HsA' Hk eq_refl HkC HstA)
    as (rs1 & rA & rs2 & Hrs & Hprom).
  by exists rs1, rA, rs2.
Qed.

Lemma promotion_is_fifo_witness :
  ∃ rs1 rA rs2,
    [] ++ BookTicket "e" "u3" :: [CancelBooking "e" "u1"] = rs1 ++ rA :: rs2
    ∧ promoted_by (exec (queue_prefix ++ BookTicket "e" "u2" :: rs1) emptyStore)
        rA "e" "u2".
Proof.
  apply (proj2 promotion_is_fifo queue_prefix [] [CancelBooking "e" "u1"]
           "e" "u2" "u3" (CancelBooking "e" "u2")).
  - exists (Booking.mk "e" "u2" Booking.waiting (Some 1)).
    vm_compute. split; reflexivity.
  - intros w Hw _.
    assert (Hwl : waitingLists
                    (exec (queue_prefix ++ BookTicket "e" "u2" :: []) emptyStore)
                  = [WaitingList.mk "e" "u2" 1 WaitingList.waiting])
      by (vm_compute; reflexivity).
    rewrite Hwl in Hw. apply list_elem_of_singleton in Hw as ->. discriminate.
  - exists (Booking.mk "e" "u3" Booking.waiting (Some 2)).
    vm_compute. split; reflexivity.
  - exists "u2", (Booking.mk "e" "u2" Booking.cancelled (Some 1)),
      (Booking.mk "e" "u3" Booking.confirmed (Some 2)).
    split; [reflexivity|]. vm_compute. split; reflexivity.
Defined.

(** The order test of the unit tests: with "u2" waiting before "u3", the
    first cancellation promotes "u2" and leaves "u3" waiting. *)
Example promotes_in_arrival_order :
  let s := exec (queue_prefix ++ [BookTicket "e" "u2"; BookTicket "e" "u3"]) emptyStore in
  snd (cancelBooking "e" "u1" s)
  = inr (Booking.mk "e" "u1" Booking.cancelled None,
         Some (Booking.mk "e" "u2" Booking.confirmed (Some 1)))
  ∧ filter (queued_in "e") (waitingLists (fst (cancelBooking "e" "u1" s)))
    = [WaitingList.mk "e" "u3" 2 WaitingList.waiting].
Proof. vm_compute. split; reflexivity. Qed.


(** * Further properties of the service *)

(** ** Queue positions follow the order of arrival *)

Lemma positions_of_app e rows rows' :
  positions_of e (rows ++ rows') = positions_of e rows ++ positions_of e rows'.
Proof. unfold positions_of. by rewrite filter_app, fmap_app. Qed.

Lemma positions_of_assigned e' e u rows :
  positions_of e' (assigned_entries e u rows) = positions_of e' rows.
Proof.
  unfold positions_of, assigned_entries.
  induction rows as [|w rows IH]; [done|].
  rewrite fmap_cons, !filter_cons.
  destruct (decide (entry_of e u w)); cbn [WaitingList.eventId WaitingList.set_status];
    destruct (decide (WaitingList.eventId w = e')); cbn; by rewrite IH.
Qed.

Lemma elem_of_positions_of e rows p :
  p ∈ positions_of e rows
  ↔ ∃ w, w ∈ rows ∧ WaitingList.eventId w = e ∧ WaitingList.position w = p.
Proof.
  unfold positions_of. rewrite list_elem_of_fmap. split.
  - intros (w & -> & [Hw Hin]%list_elem_of_filter). by exists w.
  - intros (w & Hin & He & <-). exists w. split; [done|].
    by apply list_elem_of_filter.
Qed.

(** In a table numbered by arrival the positions in use are 1, ..., n. *)
Lemma numbered_positions (ps : list Z) p :
  ps = Z.of_nat <$> seq 1 (length ps) →
  p ∈ ps ↔ 1 ≤ p ≤ Z.of_nat (length ps).
Proof.
  intros ->. rewrite length_fmap, length_seq, list_elem_of_fmap. split.
  - intros (n & -> & Hn%elem_of_seq). lia.
  - intros Hp. exists (Z.to_nat p). split; [lia|]. apply elem_of_seq. lia.
Qed.

Lemma nextPosition_bounds e rows :
  positions_of e rows = Z.of_nat <$> seq 1 (length (positions_of e rows)) →
  1 ≤ nextPosition e rows ≤ Z.of_nat (length (positions_of e rows)) + 1.
Proof.
  intros Hnum. unfold nextPosition.
  destruct (first_ordered _ _ _) as [w|] eqn:Hq; [|lia].
  apply first_ordered_Some in Hq as [Hin [He _]].
  assert (Hp : WaitingList.position w ∈ positions_of e rows)
    by (apply elem_of_positions_of; by exists w).
  apply (numbered_positions _ _ Hnum) in Hp. lia.
Qed.

(** The queue insert of a sold-out [bookTicket] goes through exactly when the
    computed position is the next unused number. *)
Lemma free_slot_iff e u rows :
  positions_of e rows = Z.of_nat <$> seq 1 (length (positions_of e rows)) →
  list_find (same_slot (WaitingList.mk e u (nextPosition e rows) WaitingList.waiting))
    rows = None
  ↔ nextPosition e rows = Z.of_nat (length (positions_of e rows)) + 1.
Proof.
  intros Hnum. pose proof (nextPosition_bounds e rows Hnum) as Hb.
  rewrite list_find_None, Forall_forall. split.
  - intros Hfree.
    destruct (decide (nextPosition e rows ≤ Z.of_nat (length (positions_of e rows))))
      as [Hle|]; [|lia].
    assert (Hin : nextPosition e rows ∈ positions_of e rows)
      by (apply (numbered_positions _ _ Hnum); lia).
    apply elem_of_positions_of in Hin as (w & Hw & Hwe & Hwp).
    by destruct (Hfree w Hw).
  - intros Hnext w Hw [Hwe Hwp]. cbn in Hwe, Hwp.
    assert (Hin : WaitingList.position w ∈ positions_of e rows)
      by (apply elem_of_positions_of; by exists w).
    apply (numbered_positions _ _ Hnum) in Hin. lia.
Qed.

Lemma positions_of_snoc_numbered e e' u rows :
  positions_of e' rows = Z.of_nat <$> seq 1 (length (positions_of e' rows)) →
  nextPosition e rows = Z.of_nat (length (positions_of e rows)) + 1 →
  positions_of e'
    (rows ++ [WaitingList.mk e u (nextPosition e rows) WaitingList.waiting])
  = Z.of_nat <$> seq 1
      (length (positions_of e'
         (rows ++ [WaitingList.mk e u (nextPosition e rows) WaitingList.waiting]))).
Proof.
  intros Hnum Hnext. rewrite positions_of_app.
  unfold positions_of at 2 4. rewrite filter_cons, filter_nil.
  cbn [WaitingList.eventId].
  destruct (decide (e = e')) as [->|Hne]; cbn.
  - rewrite length_app. cbn. rewrite Nat.add_1_r, seq_S, fmap_app. cbn.
    rewrite <- Hnum. do 2 f_equal. lia.
  - by rewrite !app_nil_r.
Qed.

(** ** Every call preserves the further properties *)

Lemma settled_empty : settled emptyStore.
Proof.
  split; simpl.
  - intros w Hw. by apply elem_of_nil in Hw.
  - intros w ev Hw. by apply elem_of_nil in Hw.
  - done.
Qed.

Lemma settled_initializeEvent id name n s :
  consistent s → settled s → settled (fst (initializeEvent id name n s)).
Proof.
  intros Hc Hs.
  destruct (initializeEvent_store id name n s) as [-> | (Hid & Hn & ->)];
    [done|]. cbn [fst].
  destruct Hs as [Hwref Hso Hnum].
  split; cbn [events bookings waitingLists]; [| |done].
  - intros w Hw. destruct (decide (id = WaitingList.eventId w)) as [->|Hne].
    + rewrite lookup_insert_eq. by eexists.
    + rewrite lookup_insert_ne by done. by apply Hwref.
  - intros w ev Hw Hws Hev.
    destruct (decide (id = WaitingList.eventId w)) as [Heq|Hne].
    + destruct (Hwref w Hw) as [ev' Hev']. congruence.
    + rewrite lookup_insert_ne in Hev by done. by eapply Hso.
Qed.

(** Taking a ticket of an event that has one keeps the waiting entries where
    they are: nobody waits for that event. *)
Lemma settled_decrement e ev s bs :
  settled s → events s !! e = Some ev → 0 < Event.availableTickets ev →
  settled (mkStore (alter (Event.add (-1)) e (events s)) bs (waitingLists s)).
Proof.
  intros [Hwref Hso Hnum] Hev Hpos.
  split; cbn [events bookings waitingLists]; [| |done].
  - intros w Hw. apply lookup_alter_is_Some. by apply Hwref.
  - intros w ev' Hw Hws Hev'.
    destruct (decide (e = WaitingList.eventId w)) as [Heq|Hne].
    + rewrite Heq in Hev. specialize (Hso w ev Hw Hws Hev). lia.
    + rewrite lookup_alter_ne in Hev' by done. by eapply Hso.
Qed.

Lemma settled_bookTicket e u s :
  consistent s → settled s → settled (fst (bookTicket e u s)).
Proof.
  intros Hc Hs.
  destruct (falsy e || falsy u) eqn:Hv.
  { by rewrite bookTicket_invalid. }
  apply orb_false_elim in Hv as [He Hu].
  destruct (is_active (list_find (booking_of e u) (bookings s))) eqn:Ha.
  { by rewrite bookTicket_duplicate. }
  destruct (events s !! e) as [ev|] eqn:Hev;
    [|by rewrite bookTicket_no_event].
  destruct (refused u) as [err|] eqn:Hr.
  { destruct (Z.lt_ge_cases 0 (Event.availableTickets ev)) as [Hpos|Hpos].
    - erewrite bookTicket_available_refused by done. cbn [fst].
      by eapply settled_decrement.
    - by erewrite bookTicket_sold_out_refused. }
  destruct (Z.lt_ge_cases 0 (Event.availableTickets ev)) as [Hpos|Hpos].
  - (* a ticket is sold *)
    erewrite bookTicket_available by done. cbn [fst].
    by eapply settled_decrement.
  - (* the event is sold out *)
    destruct Hs as [Hwref Hso Hnum].
    assert (H0 : Event.availableTickets ev = 0).
    { destruct (tickets_accounted s Hc e ev Hev). lia. }
    erewrite bookTicket_sold_out by done.
    destruct (list_find (same_slot _) _) as [[k w0]|] eqn:Hslot; cbn [fst];
      split; cbn [events bookings waitingLists]; try done.
    + intros w [Hw| ->%list_elem_of_singleton]%elem_of_app;
        [by apply Hwref | by eexists].
    + intros w ev' [Hw| ->%list_elem_of_singleton]%elem_of_app Hws Hev';
        [by eapply Hso|].
      cbn in Hev'. congruence.
    + intros e'. apply positions_of_snoc_numbered; [done|].
      by apply (free_slot_iff e u).
Qed.

Lemma settled_cancelBooking e u s :
  consistent s → settled s → settled (fst (cancelBooking e u s)).
Proof.
  intros Hc Hs.
  destruct (cancelBooking_store e u s) as [->|(i & b & Hi & Hb & Hcase)]; [done|].
  destruct Hs as [Hwref Hso Hnum].
  destruct Hb as (Hbe & Hbu & Hbs).
  assert (Hbin : b ∈ bookings s) by by eapply list_elem_of_lookup_2.
  destruct Hcase as [(Hev & ->) | [(Hev & Hq & ->) | (w & Hev & Hq & Hcase)]].
  - destruct (bookings_reference_events s Hc b Hbin) as [ev Hev']. congruence.
  - (* nobody is waiting: the ticket becomes available *)
    split; cbn [events bookings waitingLists]; [| |done].
    + intros w Hw. apply lookup_alter_is_Some. by apply Hwref.
    + intros w ev' Hw Hws Hev'.
      destruct (decide (e = WaitingList.eventId w)) as [Heq|Hne].
      * destruct (proj1 (first_ordered_None _ _ _) Hq w Hw). by split.
      * rewrite lookup_alter_ne in Hev' by done. by eapply Hso.
  - (* the earliest waiting entry is consumed *)
    pose proof Hq as [Hwin [Hwe Hws]]%first_ordered_Some.
    assert (Hwref' : ∀ w', w' ∈ assigned_entries e (WaitingList.userId w) (waitingLists s) →
              is_Some (events s !! WaitingList.eventId w')).
    { intros w' [k Hk]%list_elem_of_lookup.
      apply assigned_entries_lookup in Hk as (w0 & Hk & -> & _).
      apply Hwref. by eapply list_elem_of_lookup_2. }
    assert (Hso' : ∀ w' ev', w' ∈ assigned_entries e (WaitingList.userId w) (waitingLists s) →
              WaitingList.status w' = WaitingList.waiting →
              events s !! WaitingList.eventId w' = Some ev' →
              Event.availableTickets ev' = 0).
    { intros w' ev' [k Hk]%list_elem_of_lookup Hst Hev'.
      apply assigned_entries_lookup in Hk as (w0 & Hk & _ & _ & _ & Hsame).
      destruct (Hsame Hst) as [-> _].
      eapply Hso; [by eapply list_elem_of_lookup_2 | done..]. }
    assert (Hnum' : ∀ e', positions_of e'
                            (assigned_entries e (WaitingList.userId w) (waitingLists s))
                          = Z.of_nat <$> seq 1
                              (length (positions_of e'
                                 (assigned_entries e (WaitingList.userId w)
                                    (waitingLists s))))).
    { intros e'. rewrite positions_of_assigned. apply Hnum. }
    destruct Hcase as [(Hnf & ->) | (j & b' & Hji & Hfj & ->)];
      by split; cbn [events bookings waitingLists].
Qed.

Lemma settled_handle s r : consistent s → settled s → settled (handle s r).
Proof.
  intros Hc Hs. destruct r as [id name n|e u|e u|e]; simpl.
  - by apply settled_initializeEvent.
  - by apply settled_bookTicket.
  - by apply settled_cancelBooking.
  - by rewrite getEventStatus_store.
Qed.

Lemma reachable_settled s : reachable s → settled s.
Proof.
  induction 1 as [|s r Hs IH]; [apply settled_empty|].
  apply settled_handle; [by apply reachable_consistent | done].
Qed.

(** ** Tickets are all accounted for while no insert is refused *)







(** ** The numbering of the queue *)

(** X3.  In every reachable store the queue entries of an event, waiting or
    assigned, carry the positions 1, 2, 3, ... in the order of their
    creation; in particular no two entries of an event share a position. *)
Theorem queue_numbered_by_arrival s e :
  reachable s →
  positions_of e (waitingLists s)
  = Z.of_nat <$> seq 1 (length (positions_of e (waitingLists s)))
  ∧ NoDup (positions_of e (waitingLists s)).
Proof.
  intros Hs.
  pose proof (positions_by_arrival s (reachable_settled s Hs) e) as Hnum.
  split; [done|]. rewrite Hnum.
  apply NoDup_fmap_2; [apply _ | apply NoDup_seq].
Qed.

Lemma queue_numbered_by_arrival_witness :
  positions_of "e"
    (waitingLists (exec (queue_prefix ++ [BookTicket "e" "u2"; BookTicket "e" "u3";
                                          CancelBooking "e" "u1"]) emptyStore))
  = [1; 2].
Proof.
  destruct (queue_numbered_by_arrival
              (exec (queue_prefix ++ [BookTicket "e" "u2"; BookTicket "e" "u3";
                                      CancelBooking "e" "u1"]) emptyStore) "e")
    as [Hnum _].
  - apply reachable_exec. constructor.
  - rewrite Hnum. vm_compute. reflexivity.
Defined.

(** In a table numbered by arrival, the positions of the entries of an event
    grow with the order of their creation. *)
Lemma numbered_increasing e (rows : list WaitingList.t) :
  positions_of e rows = Z.of_nat <$> seq 1 (length (positions_of e rows)) →
  ∀ i j wi wj, rows !! i = Some wi → rows !! j = Some wj → (i < j)%nat →
    WaitingList.eventId wi = e → WaitingList.eventId wj = e →
    WaitingList.position wi < WaitingList.position wj.
Proof.
  induction rows as [|x rows IH] using rev_ind; intros Hnum i j wi wj Hi Hj Hlt Hei Hej.
  { by rewrite lookup_nil in Hi. }
  rewrite positions_of_app in Hnum.
  unfold positions_of at 2 4 in Hnum. rewrite filter_cons, filter_nil in Hnum.
  assert (Hi' : rows !! i = Some wi).
  { apply lookup_app_Some in Hi as [Hi|[Hlen Hi]]; [done|].
    apply lookup_lt_Some in Hj. rewrite length_app in Hj. cbn in Hj. lia. }
  destruct (decide (WaitingList.eventId x = e)) as [Hx|Hx]; cbn in Hnum.
  - rewrite length_app in Hnum. cbn in Hnum.
    rewrite Nat.add_1_r, seq_S, fmap_app in Hnum. cbn in Hnum.
    apply app_inj_2 in Hnum as [Hnum [= Hpx]]; [|done].
    apply lookup_app_Some in Hj as [Hj|[Hlen Hj]]; [by eapply IH|].
    apply list_lookup_singleton_Some in Hj as [_ <-]. rewrite Hpx.
    assert (Hin : WaitingList.position wi ∈ positions_of e rows).
    { apply elem_of_positions_of. exists wi.
      split; [by eapply list_elem_of_lookup_2 | done]. }
    apply (numbered_positions _ _ Hnum) in Hin. lia.
  - rewrite !app_nil_r in Hnum.
    apply lookup_app_Some in Hj as [Hj|[Hlen Hj]]; [by eapply IH|].
    apply list_lookup_singleton_Some in Hj as [_ <-]. done.
Qed.

(** C4.  Queue positions are a monotonic counter over the whole history of an
    event.  In every reachable store the queue entries of an event, waiting or
    promoted, carry strictly increasing positions in the order of their
    creation.  A [bookTicket] that returns a waiting booking has given it a
    position greater than that of every entry the event ever had, promoted
    ones included, and has appended the entry with that position.  And no
    later call removes an entry or changes its event or its position. *)
Theorem queue_positions_increase s :
  reachable s →
  (∀ i j wi wj,
     waitingLists s !! i = Some wi → waitingLists s !! j = Some wj → (i < j)%nat →
     WaitingList.eventId wi = WaitingList.eventId wj →
     WaitingList.position wi < WaitingList.position wj)
  ∧ (∀ e u b,
       snd (bookTicket e u s) = inr b → Booking.status b = Booking.waiting →
       ∃ p, Booking.position b = Some p
            ∧ (∀ w, w ∈ waitingLists s → WaitingList.eventId w = e →
                    WaitingList.position w < p)
            ∧ waitingLists (fst (bookTicket e u s))
              = waitingLists s ++ [WaitingList.mk e u p WaitingList.waiting])
  ∧ (∀ rs i w,
       waitingLists s !! i = Some w →
       ∃ w', waitingLists (exec rs s) !! i = Some w'
             ∧ WaitingList.eventId w' = WaitingList.eventId w
             ∧ WaitingList.position w' = WaitingList.position w).
Proof.
  intros Hs. pose proof (positions_by_arrival s (reachable_settled s Hs)) as Hnum.
  split_and!.
  - intros i j wi wj Hi Hj Hlt Hsame.
    by eapply (numbered_increasing (WaitingList.eventId wj) _ (Hnum _)).
  - intros e u b Hrun Hst.
    destruct (falsy e || falsy u) eqn:Hv.
    { by rewrite bookTicket_invalid in Hrun. }
    apply orb_false_elim in Hv as [He Hu].
    destruct (is_active (list_find (booking_of e u) (bookings s))) eqn:Ha.
    { by rewrite bookTicket_duplicate in Hrun. }
    destruct (events s !! e) as [ev|] eqn:Hev;
      [|by rewrite bookTicket_no_event in Hrun].
    destruct (refused u) as [err|] eqn:Hr.
    { destruct (Z.lt_ge_cases 0 (Event.availableTickets ev));
        [erewrite bookTicket_available_refused in Hrun by done
        |erewrite bookTicket_sold_out_refused in Hrun by done]; by simplify_eq. }
    destruct (Z.lt_ge_cases 0 (Event.availableTickets ev)) as [Hpos|Hpos].
    { erewrite bookTicket_available in Hrun by done. cbn in Hrun. by simplify_eq. }
    erewrite bookTicket_sold_out in Hrun |- * by done.
    destruct (list_find (same_slot _) _) as [[k w0]|] eqn:Hslot;
      cbn [fst snd] in Hrun |- *; [done|]. simplify_eq.
    exists (nextPosition e (waitingLists s)). split_and!; [done| |done].
    intros w Hw Hwe.
    apply (free_slot_iff e u _ (Hnum e)) in Hslot.
    assert (Hin : WaitingList.position w ∈ positions_of e (waitingLists s))
      by (apply elem_of_positions_of; by exists w).
    apply (numbered_positions _ _ (Hnum e)) in Hin. lia.
  - intros rs i w Hi.
    destruct (exec_row rs s i w Hi) as (w' & Hi' & He' & _ & Hp' & _).
    by exists w'.
Qed.

Lemma queue_positions_increase_witness :
  let s := exec (queue_prefix ++ [BookTicket "e" "u2"; BookTicket "e" "u3";
                                  CancelBooking "e" "u1"]) emptyStore in
  waitingLists s = [WaitingList.mk "e" "u2" 1 WaitingList.assigned;
                    WaitingList.mk "e" "u3" 2 WaitingList.waiting]
  ∧ ∃ p, Some 3 = Some p
         ∧ (∀ w, w ∈ waitingLists s → WaitingList.eventId w = "e" →
                 WaitingList.position w < p)
         ∧ waitingLists (fst (bookTicket "e" "u4" s))
           = waitingLists s ++ [WaitingList.mk "e" "u4" p WaitingList.waiting].
Proof.
  intros s. split; [vm_compute; reflexivity|].
  assert (Hs : reachable s) by (apply reachable_exec; constructor).
  destruct (queue_positions_increase s Hs) as (_ & Hcall & _).
  apply (Hcall "e" "u4" (Booking.mk "e" "u4" Booking.waiting (Some 3)));
    [vm_compute; reflexivity | reflexivity].
Defined.

(** ** Joining the queue of a sold-out event *)







(** ** The life of a booking row and of an event row *)

Lemma booking_evolves_refl b : booking_evolves b b.
Proof. by repeat split. Qed.

Lemma booking_evolves_trans b1 b2 b3 :
  booking_evolves b1 b2 → booking_evolves b2 b3 → booking_evolves b1 b3.
Proof.
  intros (He1 & Hu1 & Hp1 & Hs1) (He2 & Hu2 & Hp2 & Hs2).
  split_and!; [congruence..|lia].
Qed.

Lemma handle_booking_row s r i b :
  bookings s !! i = Some b →
  ∃ b', bookings (handle s r) !! i = Some b' ∧ booking_evolves b b'.
Proof.
  intros Hi. destruct r as [id name n|e u|e u|e]; cbn [handle].
  - exists b. split; [|apply booking_evolves_refl].
    by destruct (initializeEvent_store id name n s) as [-> | (_ & _ & ->)].
  - exists b. split; [|apply booking_evolves_refl].
    destruct (bookTicket_store e u s)
      as [->|[(ev & _ & _ & [->| ->])|(ev & _ & _ & [->| ->])]];
      cbn [bookings]; [done| |done| |]; by apply lookup_app_l_Some.
  - destruct (cancelBooking_store e u s)
      as [->|(k & bk & Hk & (_ & _ & Hbs) & Hcase)].
    { exists b. split; [done | apply booking_evolves_refl]. }
    assert (Hcancel : ∃ b', <[k := Booking.set_status Booking.cancelled bk]> (bookings s) !! i
                            = Some b' ∧ booking_evolves b b').
    { destruct (decide (i = k)) as [->|Hne].
      - rewrite list_lookup_insert_eq by by eapply lookup_lt_Some.
        eexists. split; [done|]. simplify_eq.
        split_and!; [done..|]. cbn. rewrite Hbs. cbn. lia.
      - rewrite list_lookup_insert_ne by done.
        exists b. split; [done | apply booking_evolves_refl]. }
    destruct Hcase as [(_ & ->) | [(_ & _ & ->) | (w & _ & _ & Hcase)]];
      cbn [bookings]; [done..|].
    destruct Hcase as [(_ & ->) | (j & bj & Hji & Hfj & ->)];
      cbn [bookings]; [done|].
    apply list_find_Some in Hfj as (Hj & (_ & _ & Hjs) & _).
    destruct (decide (i = j)) as [->|Hne].
    + rewrite list_lookup_insert_eq
        by (rewrite length_insert; by eapply lookup_lt_Some).
      eexists. split; [done|]. simplify_eq.
      split_and!; [done..|]. cbn. rewrite Hjs. cbn. lia.
    + by rewrite list_lookup_insert_ne.
  - exists b. split; [by rewrite getEventStatus_store | apply booking_evolves_refl].
Qed.

(** X5.  A booking row is never deleted and never changes its event, its
    requester or its position; along any sequence of calls its status only
    advances from waiting to confirmed to cancelled, so a cancelled booking
    stays as it is. *)
Theorem bookings_only_advance rs s i b :
  bookings s !! i = Some b →
  ∃ b', bookings (exec rs s) !! i = Some b'
        ∧ booking_evolves b b'
        ∧ (Booking.status b = Booking.cancelled → b' = b).
Proof.
  revert s b. induction rs as [|r rs IH]; intros s b Hi.
  - exists b. split_and!; [done | apply booking_evolves_refl | done].
  - destruct (handle_booking_row s r i b Hi) as (b1 & Hi1 & Hev1).
    destruct (IH _ _ Hi1) as (b2 & Hi2 & Hev2 & Hc2).
    exists b2. split_and!; [done | by eapply booking_evolves_trans |].
    intros Hc.
    assert (Hev : booking_evolves b b2) by by eapply booking_evolves_trans.
    destruct Hev as (He & Hu & Hp & Hrank). rewrite Hc in Hrank.
    destruct b as [e u st p], b2 as [e2 u2 st2 p2]. cbn in *. subst.
    by destruct st2; cbn in Hrank; try lia.
Qed.

Lemma bookings_only_advance_witness :
  ∃ b', bookings (exec [CancelBooking "e" "u1"; BookTicket "e" "u1"]
                    (exec scenario1 emptyStore)) !! 0%nat = Some b'
        ∧ booking_evolves (Booking.mk "e" "u1" Booking.confirmed None) b'
        ∧ (Booking.status (Booking.mk "e" "u1" Booking.confirmed None)
           = Booking.cancelled →
           b' = Booking.mk "e" "u1" Booking.confirmed None).
Proof.
  apply (bookings_only_advance [CancelBooking "e" "u1"; BookTicket "e" "u1"]
           (exec scenario1 emptyStore) 0%nat).
  reflexivity.
Defined.

Lemma handle_event_row s r e ev :
  events s !! e = Some ev →
  ∃ ev', events (handle s r) !! e = Some ev'
         ∧ Event.name ev' = Event.name ev
         ∧ Event.totalTickets ev' = Event.totalTickets ev.
Proof.
  intros Hev.
  assert (Halter : ∀ d (m : gmap string Event.t), m !! e = Some ev →
            ∀ e0, ∃ ev', alter (Event.add d) e0 m !! e = Some ev'
                         ∧ Event.name ev' = Event.name ev
                         ∧ Event.totalTickets ev' = Event.totalTickets ev).
  { intros d m Hm e0. destruct (decide (e0 = e)) as [->|Hne].
    - rewrite lookup_alter_eq, Hm. by eexists.
    - rewrite lookup_alter_ne by done. by exists ev. }
  destruct r as [id name n|e0 u|e0 u|e0]; cbn [handle].
  - destruct (initializeEvent_store id name n s) as [-> | (Hid & _ & ->)];
      [by exists ev|]. cbn.
    exists ev. split; [|done]. rewrite lookup_insert_ne; [done|]. congruence.
  - destruct (bookTicket_store e0 u s)
      as [->|[(ev0 & _ & _ & [->| ->])|(ev0 & _ & _ & [->| ->])]];
      cbn [events];
      [by exists ev | by apply Halter | by apply Halter | by exists ev..].
  - destruct (cancelBooking_store e0 u s)
      as [->|(k & bk & _ & _ & Hcase)]; [by exists ev|].
    destruct Hcase as [(_ & ->) | [(_ & _ & ->) | (w & _ & _ & Hcase)]];
      cbn [events]; [by exists ev | by apply Halter |].
    destruct Hcase as [(_ & ->) | (j & bj & _ & _ & ->)]; by exists ev.
  - rewrite getEventStatus_store. by exists ev.
Qed.

(** X6.  An event is never deleted, and no sequence of calls changes its name
    or its [totalTickets]. *)
Theorem events_persist rs s e ev :
  events s !! e = Some ev →
  ∃ ev', events (exec rs s) !! e = Some ev'
         ∧ Event.name ev' = Event.name ev
         ∧ Event.totalTickets ev' = Event.totalTickets ev.
Proof.
  revert s ev. induction rs as [|r rs IH]; intros s ev Hev; [by exists ev|].
  destruct (handle_event_row s r e ev Hev) as (ev1 & Hev1 & Hn1 & Ht1).
  destruct (IH _ _ Hev1) as (ev2 & Hev2 & Hn2 & Ht2).
  exists ev2. split_and!; [done | congruence..].
Qed.

Lemma events_persist_witness :
  ∃ ev', events (exec [BookTicket "e" "u3"; CancelBooking "e" "u1"]
                   (exec scenario1 emptyStore)) !! "e" = Some ev'
         ∧ Event.name ev' = "Concert"
         ∧ Event.totalTickets ev' = 2.
Proof.
  apply (events_persist [BookTicket "e" "u3"; CancelBooking "e" "u1"]
           (exec scenario1 emptyStore) "e" (Event.mk "Concert" 2 0)).
  reflexivity.
Defined.


(** ** Failing calls *)



(** ** Booking and cancelling at once *)

(** Decrementing and then incrementing [availableTickets] restores the row. *)
Lemma alter_add_back e (m : gmap string Event.t) :
  alter (Event.add 1) e (alter (Event.add (-1)) e m) = m.
Proof.
  apply map_eq. intros k. destruct (decide (e = k)) as [->|Hne].
  - rewrite !lookup_alter_eq. destruct (m !! k) as [[n t a]|]; [|done].
    simpl. unfold Event.add. simpl. do 2 f_equal. lia.
  - by rewrite !lookup_alter_ne.
Qed.

(** X9.  In a reachable store, when [bookTicket] returns a confirmed booking,
    a [cancelBooking] of the same requester issued next succeeds, promotes
    nobody, and leaves the events and the waiting list exactly as they were
    before the booking. *)
Theorem book_then_cancel s e u b :
  reachable s →
  snd (bookTicket e u s) = inr b → Booking.status b = Booking.confirmed →
  ∃ cb, snd (cancelBooking e u (fst (bookTicket e u s))) = inr (cb, None)
        ∧ booking_with e u Booking.cancelled cb
        ∧ events (fst (cancelBooking e u (fst (bookTicket e u s)))) = events s
        ∧ waitingLists (fst (cancelBooking e u (fst (bookTicket e u s))))
          = waitingLists s.
Proof.
  intros Hs Hrun Hst.
  destruct (falsy e || falsy u) eqn:Hv.
  { by rewrite bookTicket_invalid in Hrun. }
  apply orb_false_elim in Hv as [He Hu].
  destruct (is_active (list_find (booking_of e u) (bookings s))) eqn:Ha.
  { by rewrite bookTicket_duplicate in Hrun. }
  destruct (events s !! e) as [ev|] eqn:Hev;
    [|by rewrite bookTicket_no_event in Hrun].
  destruct (refused u) as [err|] eqn:Hr.
  { destruct (Z.lt_ge_cases 0 (Event.availableTickets ev));
      [erewrite bookTicket_available_refused in Hrun by done
      |erewrite bookTicket_sold_out_refused in Hrun by done]; by simplify_eq. }
  destruct (Z.lt_ge_cases 0 (Event.availableTickets ev)) as [Hpos|Hpos].
  2:{ erewrite bookTicket_sold_out in Hrun by done.
      destruct (list_find (same_slot _) _); cbn in Hrun; by simplify_eq. }
  erewrite bookTicket_available by done. cbn [fst].
  set (s1 := mkStore _ _ _).
  assert (Hsome : is_Some (list_find (booking_with e u Booking.confirmed) (bookings s1))).
  { apply (list_find_elem_of _ _ (Booking.mk e u Booking.confirmed None)); [|done].
    apply elem_of_app. right. left. }
  destruct Hsome as [[i bi] Hf].
  pose proof Hf as (_ & (Hbe & Hbu & _) & _)%list_find_Some.
  assert (Hq : first_ordered Z.ltb (queued_in e) (waitingLists s1) = None).
  { apply first_ordered_None. intros w Hw [Hwe Hws].
    rewrite <- Hwe in Hev.
    pose proof (waiting_means_sold_out s (reachable_settled s Hs) w ev Hw Hws Hev).
    lia. }
  assert (Hev1 : events s1 !! e = Some (Event.add (-1) ev)).
  { unfold s1. cbn. by rewrite lookup_alter_eq, Hev. }
  erewrite cancelBooking_no_queue by done. cbn [fst snd events waitingLists].
  eexists. split_and!; [done | by split_and! | apply alter_add_back | done].
Qed.

Lemma book_then_cancel_witness :
  ∃ cb, snd (cancelBooking "f" "u1"
               (fst (bookTicket "f" "u1"
                       (exec [InitializeEvent "f" "Match" 3] emptyStore))))
        = inr (cb, None)
        ∧ booking_with "f" "u1" Booking.cancelled cb
        ∧ events (fst (cancelBooking "f" "u1"
                         (fst (bookTicket "f" "u1"
                                 (exec [InitializeEvent "f" "Match" 3] emptyStore)))))
          = events (exec [InitializeEvent "f" "Match" 3] emptyStore)
        ∧ waitingLists (fst (cancelBooking "f" "u1"
                               (fst (bookTicket "f" "u1"
                                       (exec [InitializeEvent "f" "Match" 3]
                                          emptyStore)))))
          = waitingLists (exec [InitializeEvent "f" "Match" 3] emptyStore).
Proof.
  apply (book_then_cancel (exec [InitializeEvent "f" "Match" 3] emptyStore)
           "f" "u1" (Booking.mk "f" "u1" Booking.confirmed None)).
  - apply reachable_exec. constructor.
  - vm_compute. reflexivity.
  - reflexivity.
Defined.


(** ** Selling out a fresh event *)








(** ** Calls on one event and the rows of another *)

Section filter_write.
Context {A : Type} (Q : A → Prop) `{∀ x, Decision (Q x)}.

Lemma filter_insert_outside (l : list A) i x y :
  l !! i = Some x → ¬ Q x → ¬ Q y → filter Q (<[i := y]> l) = filter Q l.
Proof.
  intros Hi Hx Hy.
  rewrite insert_take_drop by by eapply lookup_lt_Some.
  rewrite <- (take_drop_middle l i x Hi) at 3.
  by rewrite !filter_app, !filter_cons, !decide_False.
Qed.
End filter_write.

Lemma assigned_entries_other e' e u rows :
  e ≠ e' →
  filter (λ w, WaitingList.eventId w = e') (assigned_entries e u rows)
  = filter (λ w, WaitingList.eventId w = e') rows.
Proof.
  intros Hne. unfold assigned_entries. induction rows as [|w rows IH]; [done|].
  rewrite fmap_cons, !filter_cons.
  destruct (decide (entry_of e u w)) as [[Hwe _]|_];
    cbn [WaitingList.eventId WaitingList.set_status].
  - rewrite !decide_False by congruence. done.
  - destruct (decide (WaitingList.eventId w = e')); by rewrite IH.
Qed.

(** X11.  A call leaves the rows of every event other than its own as they
    are: the event's row, its bookings and its queue entries. *)
Theorem other_events_untouched s r e :
  target r ≠ e → slice e (handle s r) = slice e s.
Proof.
  intros Hne. unfold slice.
  assert (Hsnoc_b : ∀ l t u st p, t ≠ e →
            filter (λ b, Booking.eventId b = e) (l ++ [Booking.mk t u st p])
            = filter (λ b, Booking.eventId b = e) l).
  { intros l t u st p Ht. rewrite filter_app, filter_cons, decide_False by done.
    by rewrite filter_nil, app_nil_r. }
  destruct r as [id name n|t u|t u|t]; cbn [handle target] in *.
  - destruct (initializeEvent_store id name n s) as [-> | (_ & _ & ->)];
      [done|]. cbn.
    by rewrite lookup_insert_ne.
  - destruct (bookTicket_store t u s)
      as [->|[(ev & _ & _ & [->| ->])|(ev & _ & _ & [->| ->])]];
      cbn [events bookings waitingLists]; [done|..].
    + by rewrite lookup_alter_ne, Hsnoc_b.
    + by rewrite lookup_alter_ne.
    + by rewrite Hsnoc_b.
    + rewrite Hsnoc_b by done.
      rewrite filter_app, filter_cons, decide_False by done.
      by rewrite filter_nil, app_nil_r.
  - destruct (cancelBooking_store t u s)
      as [->|(i & b & Hi & (Hbe & _ & _) & Hcase)]; [done|].
    assert (Hcancel : filter (λ b, Booking.eventId b = e)
                        (<[i := Booking.set_status Booking.cancelled b]> (bookings s))
                      = filter (λ b, Booking.eventId b = e) (bookings s)).
    { apply (filter_insert_outside _ _ _ b); [done | cbn; congruence..]. }
    destruct Hcase as [(_ & ->) | [(_ & _ & ->) | (w & _ & _ & Hcase)]];
      cbn [events bookings waitingLists].
    + by rewrite Hcancel.
    + by rewrite lookup_alter_ne, Hcancel.
    + destruct Hcase as [(_ & ->) | (j & b' & Hji & Hfj & ->)];
        cbn [events bookings waitingLists];
        rewrite assigned_entries_other by done.
      * by rewrite Hcancel.
      * apply list_find_Some in Hfj as (Hj & (Hje & _ & _) & _).
        rewrite (filter_insert_outside _ _ _ b');
          [by rewrite Hcancel | by rewrite list_lookup_insert_ne | cbn; congruence..].
  - by rewrite getEventStatus_store.
Qed.

Lemma other_events_untouched_witness :
  slice "f" (handle (exec (scenario1 ++ [InitializeEvent "f" "Match" 3;
                                         BookTicket "f" "a"]) emptyStore)
               (CancelBooking "e" "u1"))
  = slice "f" (exec (scenario1 ++ [InitializeEvent "f" "Match" 3;
                                   BookTicket "f" "a"]) emptyStore).
Proof.
  apply (other_events_untouched
           (exec (scenario1 ++ [InitializeEvent "f" "Match" 3; BookTicket "f" "a"])
              emptyStore)
           (CancelBooking "e" "u1") "f").
  discriminate.
Defined.


(** ** What the status aggregate shows *)






(** The hypothesis on the user ids is needed: a booking with a blank user id
    takes a ticket and inserts no booking, and the aggregate is one short. *)
Example status_after_refused_booking :
  let s := exec [InitializeEvent "e" "Concert" 2; BookTicket "e" " "] emptyStore in
  bookTicket "e" " " (exec [InitializeEvent "e" "Concert" 2] emptyStore)
  = (s, inl ValidationError)
  ∧ snd (getEventStatus (Uuid "e") id id s)
    = inr (EventStatus.mk "e" "Concert" 2 1 0 0).
Proof. vm_compute. split; reflexivity. Qed.

(** So is the hypothesis on the calls that run meanwhile: the event is read
    with its last ticket available, the ticket is sold before the bookings
    are counted, and the aggregate is one over. *)
Example status_during_booking :
  let s := exec [InitializeEvent "e" "Concert" 1] emptyStore in
  snd (getEventStatus (Uuid "e") id (exec [BookTicket "e" "u1"]) s)
  = inr (EventStatus.mk "e" "Concert" 1 1 1 0).
Proof. vm_compute. reflexivity. Qed.




(** ** A new event *)




(** * Properties of the date formatters *)

Section date_formatting.
Import DateFormatter.

Lemma string_length_app (s1 s2 : string) :
  String.length (s1 +:+ s2) = (String.length s1 + String.length s2)%nat.
Proof.
  induction s1 as [|c s1 IH]; [done|].
  change (String c s1 +:+ s2) with (String c (s1 +:+ s2)). cbn. by rewrite IH.
Qed.

Lemma app_inj_prefix (a1 a2 b1 b2 : string) :
  String.length a1 = String.length a2 →
  a1 +:+ b1 = a2 +:+ b2 → a1 = a2 ∧ b1 = b2.
Proof.
  revert a2. induction a1 as [|c a1 IH]; intros [|c' a2] Hlen Heq;
    try done.
  change (String c (a1 +:+ b1) = String c' (a2 +:+ b2)) in Heq.
  injection Heq as -> Heq. injection Hlen as Hlen.
  destruct (IH _ Hlen Heq) as [-> ->]. done.
Qed.

Lemma app_inj_suffix (a1 a2 b1 b2 : string) :
  String.length b1 = String.length b2 →
  a1 +:+ b1 = a2 +:+ b2 → a1 = a2 ∧ b1 = b2.
Proof.
  intros Hlen Heq. apply app_inj_prefix; [|done].
  apply (f_equal String.length) in Heq. rewrite !string_length_app in Heq. lia.
Qed.

Lemma compare_app (a1 a2 b1 b2 : string) :
  String.length a1 = String.length a2 →
  (a1 +:+ b1 ?= a2 +:+ b2)%string =
  match (a1 ?= a2)%string with Eq => (b1 ?= b2)%string | c => c end.
Proof.
  revert a2. induction a1 as [|c a1 IH]; intros [|c' a2] Hlen;
    try done.
  injection Hlen as Hlen.
  change (String c a1 +:+ b1) with (String c (a1 +:+ b1)).
  change (String c' a2 +:+ b2) with (String c' (a2 +:+ b2)).
  cbn. destruct (Ascii.compare c c'); [by apply IH|done..].
Qed.

(** A decidable property of the integers of a range is checked on each. *)
Lemma range_check (P : Z → Prop) `{!∀ n, Decision (P n)} (lo hi : Z) :
  bool_decide (Forall P (seqZ lo (hi - lo))) = true →
  ∀ n, lo ≤ n < hi → P n.
Proof.
  intros Hall%bool_decide_eq_true n Hn.
  rewrite Forall_forall in Hall. apply Hall, elem_of_seqZ. lia.
Qed.

Lemma range_check2 (f : Z → Z → bool) (lo hi lo' hi' : Z) :
  forallb (λ n, forallb (f n) (seqZ lo' (hi' - lo'))) (seqZ lo (hi - lo))
    = true →
  ∀ n m, lo ≤ n < hi → lo' ≤ m < hi' → f n m = true.
Proof.
  intros Hall n m Hn Hm. rewrite forallb_forall in Hall.
  assert (Hrow : forallb (f n) (seqZ lo' (hi' - lo')) = true).
  { apply Hall, list_elem_of_In, elem_of_seqZ. lia. }
  rewrite forallb_forall in Hrow.
  apply Hrow, list_elem_of_In, elem_of_seqZ. lia.
Qed.

Lemma pad2_length n : 0 ≤ n < 100 → String.length (pad2 n) = 2%nat.
Proof.
  revert n. apply (range_check (λ n, String.length (pad2 n) = 2%nat)).
  by vm_compute.
Qed.

Lemma pad2_compare n m :
  0 ≤ n < 100 → 0 ≤ m < 100 → (pad2 n ?= pad2 m)%string = (n ?= m).
Proof.
  intros Hn Hm. apply (proj1 (bool_decide_eq_true _)).
  revert n m Hn Hm.
  apply (range_check2
    (λ n m, bool_decide ((pad2 n ?= pad2 m)%string = (n ?= m)))).
  by vm_compute.
Qed.

Lemma pad2_inj n m : 0 ≤ n < 100 → 0 ≤ m < 100 → pad2 n = pad2 m → n = m.
Proof.
  intros Hn Hm Heq. apply Z.compare_eq.
  rewrite <- (pad2_compare n m) by done. rewrite Heq.
  clear. induction (pad2 m) as [|c s IH]; [done|].
  cbn. unfold Ascii.compare. by rewrite N.compare_refl.
Qed.

(** A year of four digits prints as its century followed by its last two
    digits. *)
Lemma year_digits y :
  1000 ≤ y < 10000 → pretty y = pretty (y / 100) +:+ pad2 (y mod 100).
Proof.
  revert y.
  apply (range_check (λ y, pretty y = pretty (y / 100) +:+ pad2 (y mod 100))).
  by vm_compute.
Qed.

Lemma century_compare a b :
  10 ≤ a < 100 → 10 ≤ b < 100 →
  (pretty a ?= pretty b)%string = (a ?= b) ∧
  String.length (pretty a) = 2%nat.
Proof.
  intros Ha Hb. apply (proj1 (bool_decide_eq_true _)).
  revert a b Ha Hb.
  apply (range_check2
    (λ a b, bool_decide ((pretty a ?= pretty b)%string = (a ?= b) ∧
                         String.length (pretty a) = 2%nat))).
  by vm_compute.
Qed.

Lemma year_compare y1 y2 :
  1000 ≤ y1 < 10000 → 1000 ≤ y2 < 10000 →
  (pretty y1 ?= pretty y2)%string = (y1 ?= y2).
Proof.
  intros H1 H2. rewrite (year_digits y1), (year_digits y2) by done.
  assert (10 ≤ y1 / 100 < 100 ∧ 10 ≤ y2 / 100 < 100) as [Ha Hb].
  { split; split; try (apply Z.div_le_lower_bound; lia);
      apply Z.div_lt_upper_bound; lia. }
  assert (0 ≤ y1 mod 100 < 100 ∧ 0 ≤ y2 mod 100 < 100) as [Hc Hd].
  { split; apply Z.mod_pos_bound; lia. }
  destruct (century_compare _ _ Ha Hb) as [Hcmp Hl1].
  destruct (century_compare _ _ Hb Ha) as [_ Hl2].
  rewrite compare_app by congruence. rewrite Hcmp, pad2_compare by done.
  destruct (Z.compare_spec (y1 / 100) (y2 / 100)) as [Heq|Hlt|Hgt].
  - destruct (Z.compare_spec (y1 mod 100) (y2 mod 100));
      symmetry; [apply Z.compare_eq_iff|apply Z.compare_lt_iff|
                 apply Z.compare_gt_iff];
      rewrite (Z.div_mod y1 100), (Z.div_mod y2 100) by done; lia.
  - symmetry. apply Z.compare_lt_iff.
    rewrite (Z.div_mod y1 100), (Z.div_mod y2 100) by done. lia.
  - symmetry. apply Z.compare_gt_iff.
    rewrite (Z.div_mod y1 100), (Z.div_mod y2 100) by done. lia.
Qed.

Lemma year_length y : 1000 ≤ y < 10000 → String.length (pretty y) = 4%nat.
Proof.
  revert y. apply (range_check (λ y, String.length (pretty y) = 4%nat)).
  by vm_compute.
Qed.

Lemma monthName_length i : 0 ≤ i < 12 → String.length (monthName i) = 3%nat.
Proof.
  revert i. apply (range_check (λ i, String.length (monthName i) = 3%nat)).
  by vm_compute.
Qed.

Lemma monthName_inj i j :
  0 ≤ i < 12 → 0 ≤ j < 12 → monthName i = monthName j → i = j.
Proof.
  intros Hi Hj. apply (proj1 (bool_decide_eq_true _)).
  revert i j Hi Hj.
  apply (range_check2
    (λ i j, bool_decide (monthName i = monthName j → i = j))).
  by vm_compute.
Qed.

Lemma compact_eq d :
  compact (Some d) =
  pretty (year d) +:+ "-" +:+ pad2 (month d + 1) +:+ "-" +:+
  pad2 (date d) +:+ " " +:+ pad2 (hours d) +:+ ":" +:+
  pad2 (minutes d) +:+ ":" +:+ pad2 (seconds d).
Proof. reflexivity. Qed.

Lemma readable_eq d :
  readable d =
  pad2 (date d) +:+ " " +:+ monthName (month d) +:+ " " +:+
  pretty (year d) +:+ " at " +:+ pad2 (hours d) +:+ ":" +:+
  pad2 (minutes d) +:+ ":" +:+ pad2 (seconds d) +:+ " UTC".
Proof. reflexivity. Qed.


Ltac measure :=
  rewrite ?string_length_app, ?pad2_length, ?monthName_length, ?year_length
    by lia; try reflexivity.

Ltac peel H :=
  let Hhd := fresh "Hhd" in
  apply app_inj_prefix in H as [Hhd H]; [|by measure].

(** X14.  Timestamps have a fixed width: for a valid date with a four-digit
    year [formatDateCompact] returns 19 characters and [formatDateReadable]
    returns 27. *)
Theorem formats_have_fixed_width d c r :
  calendar d → 1000 ≤ year d ≤ 9999 →
  formatDateCompact (Obj (Some d)) = Str c →
  formatDateReadable (Obj (Some d)) = Str r →
  String.length c = 19%nat ∧ String.length r = 27%nat.
Proof.
  intros (Hmo & Hda & Hh & Hm & Hs) Hy [= <-] [= <-].
  rewrite compact_eq, readable_eq. split; by measure.
Qed.

Lemma formats_have_fixed_width_witness :
  String.length "2025-11-28 21:10:58" = 19%nat ∧
  String.length "28 Nov 2025 at 21:10:58 UTC" = 27%nat.
Proof.
  apply (formats_have_fixed_width (mkUTC 2025 10 28 21 10 58)).
  - unfold calendar. cbn. lia.
  - cbn. lia.
  - vm_compute. reflexivity.
  - vm_compute. reflexivity.
Defined.

(** X15.  The compact format loses nothing down to the second: two valid
    dates that [formatDateCompact] prints alike have the same year, month,
    day, hour, minute and second, whatever the number of digits of the
    year. *)
Theorem formatDateCompact_inj d1 d2 :
  calendar d1 → calendar d2 →
  formatDateCompact (Obj (Some d1)) = formatDateCompact (Obj (Some d2)) →
  d1 = d2.
Proof.
  intros (Hmo1 & Hda1 & Hh1 & Hm1 & Hs1) (Hmo2 & Hda2 & Hh2 & Hm2 & Hs2)
    [= Heq].
  rewrite !compact_eq in Heq.
  apply app_inj_suffix in Heq as [Hy Heq]; [|by measure].
  apply (inj pretty) in Hy.
  peel Heq. apply app_inj_prefix in Heq as [HM Heq]; [|by measure].
  peel Heq. apply app_inj_prefix in Heq as [HD Heq]; [|by measure].
  peel Heq. apply app_inj_prefix in Heq as [Hh Heq]; [|by measure].
  peel Heq. apply app_inj_prefix in Heq as [Hm Heq]; [|by measure].
  peel Heq.
  apply pad2_inj in HM, HD, Hh, Hm, Heq; try lia.
  destruct d1, d2; cbn in *. f_equal; lia.
Qed.

Lemma formatDateCompact_inj_witness :
  mkUTC 2025 10 28 21 10 58 = mkUTC (2000 + 25) 10 28 21 10 58.
Proof.
  apply formatDateCompact_inj.
  - unfold calendar. cbn. lia.
  - unfold calendar. cbn. lia.
  - vm_compute. reflexivity.
Defined.

(** X16.  The readable format loses nothing down to the second either: two
    valid dates that [formatDateReadable] prints alike have the same UTC
    fields. *)
Theorem formatDateReadable_inj d1 d2 :
  calendar d1 → calendar d2 →
  formatDateReadable (Obj (Some d1)) = formatDateReadable (Obj (Some d2)) →
  d1 = d2.
Proof.
  intros (Hmo1 & Hda1 & Hh1 & Hm1 & Hs1) (Hmo2 & Hda2 & Hh2 & Hm2 & Hs2)
    [= Heq].
  rewrite !readable_eq in Heq.
  apply app_inj_prefix in Heq as [HD Heq]; [|by measure].
  peel Heq. apply app_inj_prefix in Heq as [HM Heq]; [|by measure].
  peel Heq. apply app_inj_suffix in Heq as [Hy Heq]; [|by measure].
  apply (inj pretty) in Hy.
  peel Heq. apply app_inj_prefix in Heq as [Hh Heq]; [|by measure].
  peel Heq. apply app_inj_prefix in Heq as [Hm Heq]; [|by measure].
  peel Heq. apply app_inj_prefix in Heq as [Hs Heq]; [|by measure].
  apply pad2_inj in HD, Hh, Hm, Hs; try lia.
  apply monthName_inj in HM; try lia.
  destruct d1, d2; cbn in *. f_equal; lia.
Qed.

Lemma formatDateReadable_inj_witness :
  mkUTC 2025 10 28 21 10 58 = mkUTC (2000 + 25) 10 28 21 10 58.
Proof.
  apply formatDateReadable_inj.
  - unfold calendar. cbn. lia.
  - unfold calendar. cbn. lia.
  - vm_compute. reflexivity.
Defined.

(** X17.  Log lines sort by time: for valid dates with four-digit years, the
    text [formatDateCompact] returns for one date is smaller (in the order of
    the character codes, the one of string comparison and of [sort]) than the
    text it returns for another exactly when the first date is earlier. *)
Theorem formatDateCompact_sorts_by_time d1 d2 c1 c2 :
  calendar d1 → calendar d2 →
  1000 ≤ year d1 ≤ 9999 → 1000 ≤ year d2 ≤ 9999 →
  formatDateCompact (Obj (Some d1)) = Str c1 →
  formatDateCompact (Obj (Some d2)) = Str c2 →
  (c1 ?= c2)%string = Lt ↔ earlier d1 d2.
Proof.
  intros (Hmo1 & Hda1 & Hh1 & Hm1 & Hs1) (Hmo2 & Hda2 & Hh2 & Hm2 & Hs2)
    Hy1 Hy2 [= <-] [= <-].
  rewrite !compact_eq.
  rewrite !compare_app by measure.
  rewrite year_compare, !pad2_compare by lia.
  change (("-" ?= "-")%string) with Eq. change ((" " ?= " ")%string) with Eq.
  change ((":" ?= ":")%string) with Eq. cbv iota.
  unfold earlier, fields. cbn [lex_lt].
  repeat match goal with
  | |- context [?x ?= ?y] =>
      destruct (Z.compare_spec x y)
  end; split; (lia || done || intuition lia).
Qed.

Lemma formatDateCompact_sorts_by_time_witness :
  ("2025-11-28 21:10:58" ?= "2025-12-01 00:00:00")%string = Lt ↔
  earlier (mkUTC 2025 10 28 21 10 58) (mkUTC 2025 11 1 0 0 0).
Proof.
  apply formatDateCompact_sorts_by_time.
  - unfold calendar. cbn. lia.
  - unfold calendar. cbn. lia.
  - cbn. lia.
  - cbn. lia.
  - vm_compute. reflexivity.
  - vm_compute. reflexivity.
Defined.

(** X18.  The label [formatDateWithTimezone] appends.  The minutes are those
    of the offset; the hours are those of the offset when the zone is at or
    behind UTC or a whole number of hours ahead, and one hour too many when it
    is ahead of UTC by a fraction of an hour: [Math.floor] rounds the negative
    quotient away from zero, so that India (offset -330) is labelled
    [(UTC+06:30)]. *)
Theorem timezone_label o :
  tzStr o =
  "(UTC" +:+ (if bool_decide (o ≤ 0) then "+" else "-") +:+
  pad2 (Z.abs o / 60 +
        (if bool_decide (o < 0 ∧ Z.abs o mod 60 ≠ 0) then 1 else 0)) +:+
  ":" +:+ pad2 (Z.abs o mod 60) +:+ ")".
Proof.
  assert (offsetMinutes o = Z.abs o mod 60 ∧
    offsetHours o = Z.abs o / 60 +
      (if bool_decide (o < 0 ∧ Z.abs o mod 60 ≠ 0) then 1 else 0))
    as [Hmin Hhrs]; [|by unfold tzStr, sign, pad2; rewrite Hmin, Hhrs].
  unfold offsetMinutes, offsetHours. split.
  - rewrite <- (Z.rem_abs o 60) by lia. change (Z.abs 60) with 60.
    apply Z.rem_mod_nonneg; lia.
  - case_bool_decide as Hc.
    + destruct Hc as [Hneg Hrem].
      assert (Ho : o = - Z.abs o) by lia.
      rewrite Ho at 1.
      pose proof (Z.div_mod (Z.abs o) 60 ltac:(lia)) as Hdm.
      pose proof (Z.mod_pos_bound (Z.abs o) 60 ltac:(lia)) as Hb.
      assert (Hq : - Z.abs o / 60 = - (Z.abs o / 60) - 1).
      { symmetry. apply (Z.div_unique _ _ _ (60 - Z.abs o mod 60)); lia. }
      rewrite Hq. pose proof (Z.div_pos (Z.abs o) 60 ltac:(lia) ltac:(lia)). lia.
    + destruct (decide (0 ≤ o)) as [Hpos|Hneg].
      * rewrite (Z.abs_eq o) by done. rewrite Z.abs_eq; [lia|].
        apply Z.div_pos; lia.
      * assert (Hr : Z.abs o mod 60 = 0).
        { destruct (decide (Z.abs o mod 60 = 0)); [done|]. exfalso. apply Hc. lia. }
        assert (Ho : o = - Z.abs o) by lia. rewrite Ho at 1.
        pose proof (Z.div_mod (Z.abs o) 60 ltac:(lia)) as Hdm.
        assert (Hq : - Z.abs o / 60 = - (Z.abs o / 60)).
        { symmetry. apply (Z.div_unique _ _ _ 0); lia. }
        rewrite Hq. pose proof (Z.div_pos (Z.abs o) 60 ltac:(lia) ltac:(lia)). lia.
Qed.
End date_formatting.
